(** * converter.py: the configuration-language lexer and parser

    A shallow embedding of [src/converter.py] (classes [Lexer] and [Parser])
    and the properties of it that the specification states.

    Modelling conventions.
    - A Python [str] read from the input is a [list ascii]; an [ascii] stands
      for the code point of the same number, so the model covers input texts
      whose code points are below 256.  The character classes ([str.isspace],
      the regular expression classes, [str.lower]) are written out for that
      range.
    - A text value of the produced document is a list of code points
      ([list N]), because [chr] reaches code points beyond the input alphabet.
    - Python integers are unbounded: [Z].  Cursor positions, line and column
      counters never go below zero: [nat].
    - A Python [dict] keeps insertion order: an association list in which an
      assignment to an existing key replaces the value in place.
    - An exception aborts the parse: a result is [Ok], [Raise e] or, for the
      recursive functions that take fuel, [OutOfFuel].
    - [int] refuses a decimal literal of more than [sys.int_max_str_digits]
      digits (4300, the interpreter's default); the interpreter's recursion
      depth is outside the model. *)

From Stdlib Require Import Bool Arith List Ascii String ZArith NArith Lia.
Import ListNotations.

Local Open Scope char_scope.
Local Open Scope list_scope.
Local Open Scope nat_scope.

(** ** Python strings *)

Definition str := list ascii.

(** String literals of the development. *)
Definition s (x : string) : str := list_ascii_of_string x.

Definition code (c : ascii) : N := N_of_ascii c.

(** The code points of a [str], as a text value holds them. *)
Definition codes (x : str) : list N := map code x.

(** [len(x)]. *)
Definition len (x : str) : nat := List.length x.

Definition char_eqb (a b : ascii) : bool := Ascii.eqb a b.

Fixpoint str_eqb (a b : str) : bool :=
  match a, b with
  | [], [] => true
  | x :: a', y :: b' => char_eqb x y && str_eqb a' b'
  | _, _ => false
  end.

(** [x in xs] for a list of strings. *)
Definition str_in (x : str) (xs : list str) : bool := existsb (str_eqb x) xs.

(** [t[a:b]] for [0 <= a]. *)
Definition slice (t : str) (a b : nat) : str := firstn (b - a) (skipn a t).

(** [t[1:-1]]. *)
Definition slice_1_m1 (t : str) : str := removelast (tl t).

(** [t.startswith(p)]. *)
Fixpoint startswith (p t : str) : bool :=
  match p, t with
  | [], _ => true
  | x :: p', y :: t' => char_eqb x y && startswith p' t'
  | _ :: _, [] => false
  end.

Definition in_range (lo hi : N) (c : ascii) : bool :=
  (lo <=? code c)%N && (code c <=? hi)%N.

(** [c.isspace()] on code points below 256: the ASCII white space
    (U+0009..U+000D, U+0020), the information separators U+001C..U+001F,
    NEXT LINE U+0085 and NO-BREAK SPACE U+00A0. *)
Definition isspace (c : ascii) : bool :=
  in_range 9 13 c || in_range 28 32 c
  || (code c =? 133)%N || (code c =? 160)%N.

(** The class [\d] (decimal digits): below 256 these are [0-9]. *)
Definition is_digit (c : ascii) : bool := in_range 48 57 c.

(** The class [[0-9a-fA-F]]. *)
Definition is_hex_digit (c : ascii) : bool :=
  in_range 48 57 c || in_range 97 102 c || in_range 65 70 c.

(** The class [[_a-zA-Z]]. *)
Definition is_name_start (c : ascii) : bool :=
  char_eqb c "_" || in_range 97 122 c || in_range 65 90 c.

(** The class [[_a-zA-Z0-9]]. *)
Definition is_name_char (c : ascii) : bool :=
  is_name_start c || in_range 48 57 c.

(** [c.lower()]: the ASCII capitals and the Latin-1 capitals U+00C0..U+00DE
    (U+00D7, the multiplication sign, apart) move 32 up. *)
Definition lower_char (c : ascii) : ascii :=
  if in_range 65 90 c
     || (in_range 192 222 c && negb (code c =? 215)%N)
  then ascii_of_N (code c + 32)
  else c.

Definition lower (x : str) : str := map lower_char x.

Fixpoint take_while (f : ascii -> bool) (t : str) : str :=
  match t with
  | c :: t' => if f c then c :: take_while f t' else []
  | [] => []
  end.

Fixpoint drop_while (f : ascii -> bool) (t : str) : str :=
  match t with
  | c :: t' => if f c then drop_while f t' else t
  | [] => []
  end.

(** [t.strip()]. *)
Definition lstrip (t : str) : str := drop_while isspace t.
Definition rstrip (t : str) : str := rev (drop_while isspace (rev t)).
Definition strip (t : str) : str := rstrip (lstrip t).

(** [t.split()]: the maximal runs of characters that are not white space.
    [word] is the run being read. *)
Fixpoint split_from (word : str) (t : str) : list str :=
  match t with
  | [] => match word with [] => [] | _ => [word] end
  | c :: t' =>
      if isspace c
      then match word with
           | [] => split_from [] t'
           | _ => word :: split_from [] t'
           end
      else split_from (word ++ [c]) t'
  end.

Definition split (t : str) : list str := split_from [] t.

(** [t.replace(a b, r)] for a pattern of the two characters [a b] and a
    replacement of the one character [r]: left to right, without overlap. *)
Fixpoint replace2 (a b r : ascii) (t : str) : str :=
  match t with
  | x :: t' =>
      match t' with
      | y :: t'' =>
          if char_eqb x a && char_eqb y b
          then r :: replace2 a b r t''
          else x :: replace2 a b r t'
      | [] => [x]
      end
  | [] => []
  end.

(** ** [int(text, base)]

    White space around the number is dropped, a sign may lead, base 16
    admits the prefix [0x] (and one underscore after it), and single
    underscores may separate digits. *)

Definition digit_value (c : ascii) : option Z :=
  if in_range 48 57 c then Some (Z.of_N (code c) - 48)%Z
  else if in_range 97 122 c then Some (Z.of_N (code c) - 87)%Z
  else if in_range 65 90 c then Some (Z.of_N (code c) - 55)%Z
  else None.

Definition digit_in (base : Z) (c : ascii) : option Z :=
  match digit_value c with
  | Some v => if (v <? base)%Z then Some v else None
  | None => None
  end.

(** The digits after the first one; [acc] is the number read so far. *)
Fixpoint int_digits (base : Z) (t : str) (acc : Z) : option Z :=
  match t with
  | [] => Some acc
  | c :: t' =>
      if char_eqb c "_"
      then match t' with
           | d :: t'' =>
               match digit_in base d with
               | Some v => int_digits base t'' (acc * base + v)%Z
               | None => None
               end
           | [] => None
           end
      else match digit_in base c with
           | Some v => int_digits base t' (acc * base + v)%Z
           | None => None
           end
  end.

(** [sys.int_max_str_digits]: a literal in a base that is not a power of two
    is refused ([ValueError]) when it has more digits than this. *)
Definition int_max_str_digits : Z := 4300.

Definition binary_base (base : Z) : bool :=
  (Z.land base (base - 1) =? 0)%Z.

Definition digit_count (t : str) : nat :=
  List.length (filter (fun c => negb (char_eqb c "_")) t).

Definition int_unsigned (base : Z) (t : str) : option Z :=
  match t with
  | d :: t' =>
      match digit_in base d with
      | Some v =>
          match int_digits base t' v with
          | Some n =>
              if negb (binary_base base)
                 && (int_max_str_digits <? Z.of_nat (digit_count t))%Z
              then None
              else Some n
          | None => None
          end
      | None => None
      end
  | [] => None
  end.

Definition int_prefix (base : Z) (t : str) : str :=
  match t with
  | z :: x :: t' =>
      if (base =? 16)%Z && char_eqb z "0" && (char_eqb x "x" || char_eqb x "X")
      then match t' with
           | u :: t'' => if char_eqb u "_" then t'' else t'
           | [] => t'
           end
      else t
  | _ => t
  end.

Definition py_int (base : Z) (t : str) : option Z :=
  match strip t with
  | c :: t' =>
      if char_eqb c "-"
      then option_map Z.opp (int_unsigned base (int_prefix base t'))
      else if char_eqb c "+"
      then int_unsigned base (int_prefix base t')
      else int_unsigned base (int_prefix base (c :: t'))
  | [] => None
  end.

(** ** Tokens *)

Inductive TokenType : Type :=
  | NAME | NUMBER | HEX | STRING | BOOL_TRUE | BOOL_FALSE
  | LIST_START | LPAREN | RPAREN | STRUCT_START | STRUCT_END
  | ASSIGN | COMMA | DEFINE | SEMICOLON | LBRACK | RBRACK
  | CHR_START | PLUS | MINUS | MUL | DIV | EOF.

Definition TokenType_eq_dec (a b : TokenType) : {a = b} + {a <> b}.
Proof. decide equality. Defined.

Definition is_type (a b : TokenType) : bool :=
  if TokenType_eq_dec a b then true else false.

Record Token : Type := mkToken {
  tok_type : TokenType;
  tok_value : str;
  tok_line : nat;
  tok_col : nat
}.

(** ** The lexer *)

Record Lexer : Type := mkLexer {
  text : str;
  pos : nat;
  line : nat;
  col : nat
}.

Definition Lexer_init (t : str) : Lexer := mkLexer t 0 1 1.

(** [self.text[self.pos:]].  It is empty exactly when the loop condition
    [self.pos < len(self.text)] is false, and otherwise starts with
    [self.text[self.pos]]; the scanning loops below run over it. *)
Definition rest (L : Lexer) : str := skipn (pos L) (text L).

(** [self.text[i]], for an index below the length. *)
Definition char_at (L : Lexer) (i : nat) : ascii := nth i (text L) zero.

Definition newline : ascii := "010".
Definition dquote : ascii := "034".
Definition squote : ascii := "039".
Definition backslash : ascii := "092".

(** One character read: [self.pos += 1] with the line and column kept as
    the three scanning loops keep them. *)
Definition step_char (c : ascii) (L : Lexer) : Lexer :=
  if char_eqb c newline
  then mkLexer (text L) (S (pos L)) (S (line L)) 1
  else mkLexer (text L) (S (pos L)) (line L) (S (col L)).

(** [_skip_line_comment]: the loop, over [self.text[self.pos:]]. *)
Fixpoint skip_line_comment_loop (r : str) (L : Lexer) : Lexer :=
  match r with
  | c :: r' =>
      if char_eqb c newline then L
      else skip_line_comment_loop r'
             (mkLexer (text L) (S (pos L)) (line L) (S (col L)))
  | [] => L
  end.

Definition _skip_line_comment (L : Lexer) : Lexer :=
  let L1 := skip_line_comment_loop (rest L) L in
  if pos L1 <? len (text L1)
  then mkLexer (text L1) (pos L1) (S (line L1)) 1
  else L1.

(** [_skip_whitespace]. *)
Fixpoint skip_whitespace_loop (r : str) (L : Lexer) : Lexer :=
  match r with
  | c :: r' => if isspace c then skip_whitespace_loop r' (step_char c L) else L
  | [] => L
  end.

Definition _skip_whitespace (L : Lexer) : Lexer :=
  skip_whitespace_loop (rest L) L.

(** [_skip_multiline_comment]: the loop runs while two characters are left,
    [self.pos + 1 < len(self.text)]. *)
Fixpoint skip_multiline_comment_loop (r : str) (L : Lexer) : Lexer :=
  match r with
  | c :: r' =>
      match r' with
      | d :: _ =>
          if char_eqb c "-" && char_eqb d "}"
          then mkLexer (text L) (pos L + 2) (line L) (col L + 2)
          else skip_multiline_comment_loop r' (step_char c L)
      | [] => L
      end
  | [] => L
  end.

Definition _skip_multiline_comment (L : Lexer) : Lexer :=
  let L1 := mkLexer (text L) (pos L + 2) (line L) (col L + 2) in
  skip_multiline_comment_loop (rest L1) L1.

(** The scan of [Lexer._parse_expression] for the matching bracket, from
    index [e] over [self.text[e:]].  It gives the final [end] and
    [bracket_count]; a [break] leaves [end] on the closing bracket. *)
Fixpoint bracket_scan (r : str) (e : nat) (count : Z) : nat * Z :=
  match r with
  | c :: r' =>
      if char_eqb c "["
      then bracket_scan r' (S e) (count + 1)%Z
      else if char_eqb c "]"
      then if (count - 1 =? 0)%Z then (e, (count - 1)%Z)
           else bracket_scan r' (S e) (count - 1)%Z
      else bracket_scan r' (S e) count
  | [] => (e, count)
  end.

(** The list [['+', '-', '*', '/']]. *)
Definition operators : list str := [["+"]; ["-"]; ["*"]; ["/"]].

(** [Lexer._parse_expression]: a bracket expression as one token, when the
    bracket is closed and its interior has an operator and an operand. *)
Definition Lexer_parse_expression (L : Lexer) : option (Token * Lexer) :=
  let start_pos := pos L in
  let '(e, count) := bracket_scan (rest L) (pos L) 0%Z in
  if (e =? len (text L)) || negb (count =? 0)%Z then None
  else
    let content := split (strip (slice (text L) (start_pos + 1) e)) in
    if (2 <=? List.length content) && str_in (hd [] content) operators
    then
      let value := slice (text L) start_pos (e + 1) in
      Some (mkToken LBRACK value (line L) (col L),
            mkLexer (text L) (e + 1) (line L) (col L + len value))
    else None.

(** [_parse_number]: the pattern [0[xX][0-9a-fA-F]+|\d+] at the cursor. *)
Definition match_number (r : str) : option str :=
  let hex :=
    match r with
    | z :: x :: r' =>
        if char_eqb z "0" && (char_eqb x "x" || char_eqb x "X")
        then match take_while is_hex_digit r' with
             | [] => None
             | ds => Some (z :: x :: ds)
             end
        else None
    | _ => None
    end in
  match hex with
  | Some v => Some v
  | None =>
      match take_while is_digit r with
      | [] => None
      | ds => Some ds
      end
  end.

Definition _parse_number (L : Lexer) : option (Token * Lexer) :=
  match match_number (rest L) with
  | Some value =>
      let token_type :=
        if startswith (s "0x") (lower value) then HEX else NUMBER in
      Some (mkToken token_type value (line L) (col L),
            mkLexer (text L) (pos L + len value) (line L)
                    (col L + len value))
  | None => None
  end.

(** [_parse_string]: the scan for the closing quote, over
    [self.text[self.pos:]].  The cursor moves with the scan, and a scan that
    reaches the end of the text returns no token and leaves the cursor
    there. *)
Fixpoint string_scan (r : str) (quote : ascii) (start start_line start_col : nat)
    (L : Lexer) : option Token * Lexer :=
  match r with
  | c :: r' =>
      if char_eqb c quote
         && ((pos L =? 0) || negb (char_eqb (char_at L (pos L - 1)) backslash))
      then (Some (mkToken STRING (slice (text L) start (pos L + 1))
                          start_line start_col),
            mkLexer (text L) (S (pos L)) (line L) (S (col L)))
      else string_scan r' quote start start_line start_col (step_char c L)
  | [] => (None, L)
  end.

Definition _parse_string (L : Lexer) : option Token * Lexer :=
  let quote := char_at L (pos L) in
  if negb (char_eqb quote squote || char_eqb quote dquote) then (None, L)
  else
    let L1 := mkLexer (text L) (S (pos L)) (line L) (S (col L)) in
    string_scan (rest L1) quote (pos L) (line L) (col L) L1.

(** [_match_keyword]: the literal patterns, in the order of the table, then
    the identifier pattern [[_a-zA-Z][_a-zA-Z0-9]*]. *)
Definition patterns : list (str * TokenType) :=
  [ (s "struct{", STRUCT_START); (s "(list", LIST_START);
    (s "chr(", CHR_START); (s ":=", DEFINE); (s ";", SEMICOLON);
    (s "=", ASSIGN); (s ",", COMMA); (s "}", STRUCT_END); (s ")", RPAREN);
    (s "true", BOOL_TRUE); (s "false", BOOL_FALSE) ].

Definition match_name (r : str) : option str :=
  match r with
  | c :: r' =>
      if is_name_start c then Some (c :: take_while is_name_char r') else None
  | [] => None
  end.

Definition _match_keyword (L : Lexer) : option (Token * Lexer) :=
  match find (fun p => startswith (fst p) (rest L)) patterns with
  | Some (pattern, ttype) =>
      Some (mkToken ttype pattern (line L) (col L),
            mkLexer (text L) (pos L + len pattern) (line L)
                    (col L + len pattern))
  | None =>
      match match_name (rest L) with
      | Some value =>
          Some (mkToken NAME value (line L) (col L),
                mkLexer (text L) (pos L + len value) (line L)
                        (col L + len value))
      | None => None
      end
  end.

(** [next_token]: the loop.  Every round that does not return a token
    moves the cursor forward, so [fuel] rounds are enough when [fuel]
    exceeds the number of characters left ([next_token_loop_enough]). *)
Fixpoint next_token_loop (fuel : nat) (L : Lexer) : option (Token * Lexer) :=
  match fuel with
  | 0 => None
  | S fuel' =>
      match rest L with
      | [] => Some (mkToken EOF [] (line L) (col L), L)
      | char :: _ =>
          if char_eqb char "#"
          then next_token_loop fuel' (_skip_line_comment L)
          else if isspace char
          then next_token_loop fuel' (_skip_whitespace L)
          else if (pos L + 1 <? len (text L))
                  && str_eqb (slice (text L) (pos L) (pos L + 2)) (s "{-")
          then next_token_loop fuel' (_skip_multiline_comment L)
          else
            match (if char_eqb (char_at L (pos L)) "["
                   then Lexer_parse_expression L else None) with
            | Some r => Some r
            | None =>
                match _match_keyword L with
                | Some r => Some r
                | None =>
                    match _parse_number L with
                    | Some r => Some r
                    | None =>
                        match _parse_string L with
                        | (Some tok, L') => Some (tok, L')
                        | (None, L') =>
                            next_token_loop fuel'
                              (mkLexer (text L') (S (pos L')) (line L')
                                       (S (col L')))
                        end
                    end
                end
            end
      end
  end.

(** [next_token], with one round more than there are characters left: the
    loop then always returns ([next_token_lexed]), and more rounds change
    nothing ([next_token_loop_fuel]). *)
Definition next_token (L : Lexer) : Token * Lexer :=
  match next_token_loop (S (len (rest L))) L with
  | Some r => r
  | None => (mkToken EOF [] (line L) (col L), L)
  end.

(** ** Values, dictionaries, exceptions *)

#[local] Set Warnings "-register-all".

(** What the parser builds: a Python [int], [str], [bool], [list] or
    [dict]. *)
Inductive Value : Type :=
  | VInt (z : Z)
  | VStr (x : list N)
  | VBool (b : bool)
  | VList (l : list Value)
  | VDict (d : list (str * Value)).

Definition dict := list (str * Value).

(** [d[k]], for [k in d]. *)
Fixpoint dict_get (k : str) (d : dict) : option Value :=
  match d with
  | (k', v) :: d' => if str_eqb k' k then Some v else dict_get k d'
  | [] => None
  end.

(** [d[k] = v]: an existing key keeps its place, a new key goes last. *)
Fixpoint dict_set (k : str) (v : Value) (d : dict) : dict :=
  match d with
  | (k', v') :: d' =>
      if str_eqb k' k then (k', v) :: d' else (k', v') :: dict_set k v d'
  | [] => [(k, v)]
  end.

(** [isinstance(v, int)], with the integer that [v] then is: [bool] is a
    subclass of [int], [True] is 1 and [False] is 0. *)
Definition as_int (v : Value) : option Z :=
  match v with
  | VInt z => Some z
  | VBool true => Some 1%Z
  | VBool false => Some 0%Z
  | _ => None
  end.

(** The messages of the syntax errors the parser raises. *)
Inductive Message : Type :=
  | Expected (l c : nat) (expected actual : TokenType)
  | ExpectedAssign (l c : nat) (actual : TokenType)
  | UnexpectedValue (l c : nat) (actual : TokenType)
  | IncorrectExpression (expr : str)
  | UnknownOperation (op : str)
  | ArgumentsMustBeNumbers (expr : str).

(** [ValueError] comes from the built-ins [int] and [chr], [OverflowError]
    from [chr]. *)
Inductive Exception : Type :=
  | SyntaxError (m : Message)
  | ValueError
  | OverflowError.

Inductive Res (A : Type) : Type :=
  | Ok (a : A)
  | Raise (e : Exception)
  | OutOfFuel.

Arguments Ok {A} a.
Arguments Raise {A} e.
Arguments OutOfFuel {A}.

Definition bind {A B : Type} (m : Res A) (k : A -> Res B) : Res B :=
  match m with
  | Ok a => k a
  | Raise e => Raise e
  | OutOfFuel => OutOfFuel
  end.

Notation "x <- m ;; k" := (bind m (fun x => k))
  (at level 61, m at next level, right associativity).
Notation "' p <- m ;; k" := (bind m (fun x => let 'p := x in k))
  (at level 61, p pattern, m at next level, right associativity).

(** [int(text, base)] as a step of the parse. *)
Definition int_of (base : Z) (t : str) : Res Value :=
  match py_int base t with
  | Some z => Ok (VInt z)
  | None => Raise ValueError
  end.

(** [chr(z)]: the one-character string of code point [z], for [z] in
    [range(0x110000)]; [ValueError] outside that range, [OverflowError] when
    [z] does not fit a C [int]. *)
Definition py_chr (z : Z) : Res Value :=
  if (z <? -2147483648)%Z || (2147483647 <? z)%Z then Raise OverflowError
  else if (z <? 0)%Z || (1114111 <? z)%Z then Raise ValueError
  else Ok (VStr [Z.to_N z]).

(** ** The parser *)

Record Parser : Type := mkParser {
  lexer : Lexer;
  current_token : Token;
  constants : dict
}.

Definition Parser_init (L : Lexer) : Parser :=
  let '(t, L') := next_token L in mkParser L' t [].

Definition current_type (P : Parser) : TokenType := tok_type (current_token P).

(** [self.current_token = self.lexer.next_token()]. *)
Definition advance (P : Parser) : Parser :=
  let '(t, L') := next_token (lexer P) in mkParser L' t (constants P).

Definition eat (token_type : TokenType) (P : Parser) : Res Parser :=
  if is_type (current_type P) token_type
  then Ok (advance P)
  else Raise (SyntaxError
                (Expected (tok_line (current_token P)) (tok_col (current_token P))
                          token_type (current_type P))).

(** [if self.current_token.type == t: self.eat(t)]. *)
Definition eat_optional (token_type : TokenType) (P : Parser) : Res Parser :=
  if is_type (current_type P) token_type then eat token_type P else Ok P.

(** An argument of a bracket expression (the source has these lines once
    for [arg1] and once for [arg2]): the constant of that name, or else the
    text read as a number. *)
Definition resolve_argument (consts : dict) (field : str) : Res Value :=
  let arg_str := strip field in
  match dict_get arg_str consts with
  | Some v => Ok v
  | None =>
      if startswith (s "0x") (lower arg_str)
      then int_of 16 arg_str
      else int_of 10 arg_str
  end.

(** The table [ops], read at [op]. *)
Definition apply_operator (op : str) (arg1 arg2 : Z) : Z :=
  if str_eqb op ["+"] then (arg1 + arg2)%Z
  else if str_eqb op ["-"] then (arg1 - arg2)%Z
  else if str_eqb op ["*"] then (arg1 * arg2)%Z
  else if negb (arg2 =? 0)%Z then (arg1 / arg2)%Z else 0%Z.

(** [Parser._parse_expression]. *)
Definition Parser_parse_expression (P : Parser) : Res (Value * Parser) :=
  let expr_str := tok_value (current_token P) in
  P1 <- eat LBRACK P ;;
  let content := split (strip (slice_1_m1 expr_str)) in
  match content with
  | op :: field1 :: more =>
      if negb (str_in op operators)
      then Raise (SyntaxError (UnknownOperation op))
      else
        arg1 <- resolve_argument (constants P1) field1 ;;
        match more with
        | [] => Ok (arg1, P1)
        | field2 :: _ =>
            arg2 <- resolve_argument (constants P1) field2 ;;
            match as_int arg1, as_int arg2 with
            | Some a, Some b => Ok (VInt (apply_operator op a b), P1)
            | _, _ => Raise (SyntaxError (ArgumentsMustBeNumbers expr_str))
            end
        end
  | _ => Raise (SyntaxError (IncorrectExpression expr_str))
  end.

(** The text of a string token without its quotes and with the escaped
    quotes replaced. *)
Definition string_value (t : str) : str :=
  replace2 backslash squote squote
    (replace2 backslash dquote dquote (slice_1_m1 t)).

(** [_parse_value], [_parse_list], [_parse_struct] and [_parse_chr] call
    each other; every call and every round of a loop takes one unit of
    fuel. *)
Fixpoint _parse_value (fuel : nat) (P : Parser) {struct fuel}
    : Res (Value * Parser) :=
  match fuel with
  | 0 => OutOfFuel
  | S f =>
      let token := current_token P in
      match tok_type token with
      | NUMBER =>
          value <- int_of 10 (tok_value token) ;;
          P1 <- eat NUMBER P ;;
          Ok (value, P1)
      | HEX =>
          value <- int_of 16 (tok_value token) ;;
          P1 <- eat HEX P ;;
          Ok (value, P1)
      | STRING =>
          P1 <- eat STRING P ;;
          Ok (VStr (codes (string_value (tok_value token))), P1)
      | BOOL_TRUE => P1 <- eat BOOL_TRUE P ;; Ok (VBool true, P1)
      | BOOL_FALSE => P1 <- eat BOOL_FALSE P ;; Ok (VBool false, P1)
      | NAME =>
          let name := tok_value token in
          match dict_get name (constants P) with
          | Some v => P1 <- eat NAME P ;; Ok (v, P1)
          | None => P1 <- eat NAME P ;; Ok (VStr (codes name), P1)
          end
      | LIST_START => _parse_list f P
      | STRUCT_START => _parse_struct f P
      | CHR_START => _parse_chr f P
      | LBRACK => Parser_parse_expression P
      | other =>
          Raise (SyntaxError
                   (UnexpectedValue (tok_line token) (tok_col token) other))
      end
  end

with _parse_list (fuel : nat) (P : Parser) {struct fuel}
    : Res (Value * Parser) :=
  match fuel with
  | 0 => OutOfFuel
  | S f =>
      P1 <- eat LIST_START P ;;
      '(result, P2) <- _parse_list_loop f P1 [] ;;
      P3 <- eat RPAREN P2 ;;
      Ok (VList result, P3)
  end

with _parse_list_loop (fuel : nat) (P : Parser) (result : list Value)
    {struct fuel} : Res (list Value * Parser) :=
  match fuel with
  | 0 => OutOfFuel
  | S f =>
      if negb (is_type (current_type P) RPAREN)
         && negb (is_type (current_type P) EOF)
      then
        '(v, P1) <- _parse_value f P ;;
        P2 <- eat_optional COMMA P1 ;;
        _parse_list_loop f P2 (result ++ [v])
      else Ok (result, P)
  end

with _parse_struct (fuel : nat) (P : Parser) {struct fuel}
    : Res (Value * Parser) :=
  match fuel with
  | 0 => OutOfFuel
  | S f =>
      P1 <- eat STRUCT_START P ;;
      '(result, P2) <- _parse_struct_loop f P1 [] ;;
      P3 <- eat STRUCT_END P2 ;;
      Ok (VDict result, P3)
  end

with _parse_struct_loop (fuel : nat) (P : Parser) (result : dict)
    {struct fuel} : Res (dict * Parser) :=
  match fuel with
  | 0 => OutOfFuel
  | S f =>
      if negb (is_type (current_type P) EOF)
         && negb (is_type (current_type P) STRUCT_END)
      then
        if negb (is_type (current_type P) NAME)
        then _parse_struct_loop f (advance P) result
        else
          let name := tok_value (current_token P) in
          P1 <- eat NAME P ;;
          if negb (is_type (current_type P1) ASSIGN)
          then Raise (SyntaxError
                        (ExpectedAssign (tok_line (current_token P1))
                                        (tok_col (current_token P1))
                                        (current_type P1)))
          else
            P2 <- eat ASSIGN P1 ;;
            '(value, P3) <- _parse_value f P2 ;;
            P4 <- eat_optional COMMA P3 ;;
            _parse_struct_loop f P4 (dict_set name value result)
      else Ok (result, P)
  end

with _parse_chr (fuel : nat) (P : Parser) {struct fuel}
    : Res (Value * Parser) :=
  match fuel with
  | 0 => OutOfFuel
  | S f =>
      P1 <- eat CHR_START P ;;
      '(arg, P2) <- _parse_value f P1 ;;
      P3 <- eat RPAREN P2 ;;
      match as_int arg with
      | Some z => v <- py_chr z ;; Ok (v, P3)
      | None => Ok (VStr (codes ["?"]), P3)
      end
  end.

(** [self.constants[name] = value]. *)
Definition define (name : str) (value : Value) (P : Parser) : Parser :=
  mkParser (lexer P) (current_token P) (dict_set name value (constants P)).

(** One round of the loop of [parse], for a current token that is not
    [EOF]: one statement.  [result] is the document built so far. *)
Definition parse_statement (f : nat) (P : Parser) (result : dict)
    : Res (dict * Parser) :=
  if is_type (current_type P) SEMICOLON
  then P1 <- eat SEMICOLON P ;; Ok (result, P1)
  else if is_type (current_type P) NAME
  then
    let name := tok_value (current_token P) in
    P1 <- eat NAME P ;;
    if is_type (current_type P1) DEFINE
    then
      P2 <- eat DEFINE P1 ;;
      '(value, P3) <- _parse_value f P2 ;;
      P4 <- eat_optional SEMICOLON (define name value P3) ;;
      Ok (dict_set name value result, P4)
    else if is_type (current_type P1) ASSIGN
    then
      P2 <- eat ASSIGN P1 ;;
      '(value, P3) <- _parse_value f P2 ;;
      P4 <- eat_optional SEMICOLON P3 ;;
      Ok (dict_set name value result, P4)
    else if is_type (current_type P1) STRUCT_START
    then
      '(value, P2) <- _parse_struct f P1 ;;
      Ok (dict_set name value result, P2)
    else Ok (dict_set name (VStr (codes name)) result, P1)
  else
    '(value, P1) <- _parse_value f P ;;
    Ok (dict_set (s "_value") value result, P1).

Fixpoint parse_loop (fuel : nat) (P : Parser) (result : dict) {struct fuel}
    : Res dict :=
  match fuel with
  | 0 => OutOfFuel
  | S f =>
      if is_type (current_type P) EOF then Ok result
      else
        '(result1, P1) <- parse_statement f P result ;;
        parse_loop f P1 result1
  end.

(** The number of characters the lexer has not read, and one more while
    the current token is not [EOF]: what is left to parse. *)
Definition remaining (P : Parser) : nat :=
  len (rest (lexer P)) + (if is_type (current_type P) EOF then 0 else 1).

(** Fuel that is enough for [P] ([parse_loop_enough]). *)
Definition fuel_for (P : Parser) : nat := 3 * remaining P + 2.

Definition parse (P : Parser) : Res dict := parse_loop (fuel_for P) P [].

(** [Parser(Lexer(text)).parse()]. *)
Definition parse_text (t : str) : Res dict :=
  parse (Parser_init (Lexer_init t)).

(** The tokens that repeated calls of [next_token] return, up to the first
    [EOF]; a token other than [EOF] takes at least one character, so the
    length of the text bounds their number. *)
Fixpoint tokens_from (fuel : nat) (L : Lexer) : list Token :=
  match fuel with
  | 0 => []
  | S f =>
      let '(t, L') := next_token L in
      if is_type (tok_type t) EOF then [t] else t :: tokens_from f L'
  end.

Definition tokenize (t : str) : list Token :=
  tokens_from (S (len t)) (Lexer_init t).

(** A token as its type and text. *)
Definition shape (t : Token) : TokenType * str := (tok_type t, tok_value t).

(** The value of a result, without the parser state. *)
Definition fmap_value {A B : Type} (r : Res (A * B)) : Res A :=
  '(a, _) <- r ;; Ok a.

(** The parser after [if self.current_token.type == SEMICOLON:
    self.eat(SEMICOLON)]. *)
Definition skip_semicolon (P : Parser) : Parser :=
  if is_type (current_type P) SEMICOLON then advance P else P.

(** The elements of a list literal, described apart from the loop that
    reads them: from the state [P] the values [vs] are parsed one after the
    other, each followed by a comma (which is passed over) or by no comma,
    until the state [P'] whose current token is the closing parenthesis. *)
Inductive Elements (f : nat) : Parser -> list Value -> Parser -> Prop :=
  | Elements_end (P : Parser) :
      current_type P = RPAREN -> Elements f P [] P
  | Elements_comma (P : Parser) (v : Value) (P1 : Parser)
                   (vs : list Value) (P' : Parser) :
      _parse_value f P = Ok (v, P1) ->
      current_type P1 = COMMA ->
      Elements f (advance P1) vs P' ->
      Elements f P (v :: vs) P'
  | Elements_plain (P : Parser) (v : Value) (P1 : Parser)
                   (vs : list Value) (P' : Parser) :
      _parse_value f P = Ok (v, P1) ->
      current_type P1 <> COMMA ->
      Elements f P1 vs P' ->
      Elements f P (v :: vs) P'.

(** Whether the closing marker of a block comment occurs in [r]. *)
Fixpoint has_close (r : str) : bool :=
  match r with
  | c :: r' =>
      match r' with
      | d :: _ => (char_eqb c "-" && char_eqb d "}") || has_close r'
      | [] => false
      end
  | [] => false
  end.


(** The number of line breaks in [t]. *)
Definition newlines (t : str) : nat :=
  List.length (filter (fun c => char_eqb c newline) t).

(** The parser after [if self.current_token.type == COMMA:
    self.eat(COMMA)]. *)
Definition skip_comma (P : Parser) : Parser :=
  if is_type (current_type P) COMMA then advance P else P.

(** The body of a struct literal, described apart from the loop that reads
    it: from the state [P] the fields [kvs] are read in order, each a name,
    [=] and a value, followed by a comma or not, with tokens that are not
    names passed over in between, until the state [P'] whose current token
    is the closing brace. *)
Inductive Fields (f : nat) : Parser -> list (str * Value) -> Parser -> Prop :=
  | Fields_end (P : Parser) :
      current_type P = STRUCT_END -> Fields f P [] P
  | Fields_stray (P : Parser) (kvs : list (str * Value)) (P' : Parser) :
      current_type P <> NAME -> current_type P <> EOF ->
      current_type P <> STRUCT_END ->
      Fields f (advance P) kvs P' ->
      Fields f P kvs P'
  | Fields_field (P : Parser) (v : Value) (P3 : Parser)
                 (kvs : list (str * Value)) (P' : Parser) :
      current_type P = NAME ->
      current_type (advance P) = ASSIGN ->
      _parse_value f (advance (advance P)) = Ok (v, P3) ->
      Fields f (skip_comma P3) kvs P' ->
      Fields f P ((tok_value (current_token P), v) :: kvs) P'.

(** The dictionary after the assignments [d[k] = v] for the pairs of
    [kvs], in order. *)
Definition dict_update (d : dict) (kvs : list (str * Value)) : dict :=
  fold_left (fun d kv => dict_set (fst kv) (snd kv) d) kvs d.




(** ** The vocabulary of the proofs *)

(** [refines r r']: where the run [r] did not use up its fuel, [r'] ends
    as [r] does. *)
Definition refines {A : Type} (r r' : Res A) : Prop :=
  r <> OutOfFuel -> r' = r.

(** The six functions with fuel [f'] refine them with fuel [f]. *)
Definition fuel_refines (f f' : nat) : Prop :=
  (forall P, refines (_parse_value f P) (_parse_value f' P)) /\
  (forall P, refines (_parse_list f P) (_parse_list f' P)) /\
  (forall P acc,
     refines (_parse_list_loop f P acc) (_parse_list_loop f' P acc)) /\
  (forall P, refines (_parse_struct f P) (_parse_struct f' P)) /\
  (forall P acc,
     refines (_parse_struct_loop f P acc) (_parse_struct_loop f' P acc)) /\
  (forall P, refines (_parse_chr f P) (_parse_chr f' P)).

(** [moves L L']: the same text, the cursor not before where it was. *)
Definition moves (L L' : Lexer) : Prop :=
  text L' = text L /\ pos L <= pos L'.

(** [advances L L']: the same text, the cursor strictly after where it
    was. *)
Definition advances (L L' : Lexer) : Prop :=
  text L' = text L /\ pos L < pos L'.

(** What a call of [next_token] does to the lexer: it returns [EOF] with
    the cursor at or past the end of the text, or another token with the
    cursor moved forward. *)
Definition lexed (L : Lexer) (t : Token) (L' : Lexer) : Prop :=
  moves L L' /\
  ((tok_type t = EOF /\ rest L' = []) \/
   (tok_type t <> EOF /\ pos L < pos L' /\ pos L < len (text L))).

(** [within r n]: the run [r] did not use up its fuel, and where it
    returned a parser, less than [n] is left to parse. *)
Definition within {A : Type} (r : Res (A * Parser)) (n : nat) : Prop :=
  r <> OutOfFuel /\ forall a P', r = Ok (a, P') -> remaining P' < n.

(** * Properties *)

(** ** Equality tests *)

Lemma is_type_refl (a : TokenType) : is_type a a = true.
Proof. unfold is_type. destruct (TokenType_eq_dec a a); congruence. Qed.

Lemma is_type_true (a b : TokenType) : is_type a b = true <-> a = b.
Proof.
  unfold is_type. destruct (TokenType_eq_dec a b); split; congruence.
Qed.

Lemma is_type_false (a b : TokenType) : is_type a b = false <-> a <> b.
Proof.
  unfold is_type. destruct (TokenType_eq_dec a b); split; congruence.
Qed.

Lemma char_eqb_eq (a b : ascii) : char_eqb a b = true <-> a = b.
Proof. apply Ascii.eqb_eq. Qed.

Lemma str_eqb_eq (a b : str) : str_eqb a b = true <-> a = b.
Proof.
  revert b. induction a as [|x a IH]; intros [|y b]; simpl;
    try (split; congruence).
  rewrite andb_true_iff, char_eqb_eq, IH. split.
  - intros [-> ->]. reflexivity.
  - intros E. injection E as -> ->. auto.
Qed.

Lemma str_eqb_refl (a : str) : str_eqb a a = true.
Proof. apply str_eqb_eq. reflexivity. Qed.

Lemma str_eqb_sym (a b : str) : str_eqb a b = str_eqb b a.
Proof.
  destruct (str_eqb a b) eqn:E1, (str_eqb b a) eqn:E2; try reflexivity.
  - apply str_eqb_eq in E1. subst. rewrite str_eqb_refl in E2. discriminate.
  - apply str_eqb_eq in E2. subst. rewrite str_eqb_refl in E1. discriminate.
Qed.

(** ** Dictionaries *)

Lemma dict_get_set_same (k : str) (v : Value) (d : dict) :
  dict_get k (dict_set k v d) = Some v.
Proof.
  induction d as [|[k' v'] d IH]; simpl.
  - rewrite str_eqb_refl. reflexivity.
  - destruct (str_eqb k' k) eqn:E; simpl; rewrite E; auto.
Qed.

Lemma dict_get_set_other (k k' : str) (v : Value) (d : dict) :
  str_eqb k k' = false -> dict_get k' (dict_set k v d) = dict_get k' d.
Proof.
  intros Hk. induction d as [|[k0 v0] d IH]; simpl.
  - rewrite Hk. reflexivity.
  - destruct (str_eqb k0 k) eqn:E; simpl.
    + apply str_eqb_eq in E. subst k0. rewrite Hk. reflexivity.
    + destruct (str_eqb k0 k'); auto.
Qed.

(** ** The steps of the parser *)

Lemma eat_current (t : TokenType) (P : Parser) :
  current_type P = t -> eat t P = Ok (advance P).
Proof. intros <-. unfold eat. rewrite is_type_refl. reflexivity. Qed.

Lemma eat_other (t : TokenType) (P : Parser) :
  current_type P <> t ->
  eat t P = Raise (SyntaxError
                     (Expected (tok_line (current_token P))
                               (tok_col (current_token P)) t (current_type P))).
Proof.
  intros H. unfold eat. apply is_type_false in H. rewrite H. reflexivity.
Qed.

Lemma eat_ok_inv (t : TokenType) (P P' : Parser) :
  eat t P = Ok P' -> current_type P = t /\ P' = advance P.
Proof.
  unfold eat. destruct (is_type (current_type P) t) eqn:E; [|discriminate].
  apply is_type_true in E. intros H. injection H as <-. auto.
Qed.

Lemma constants_advance (P : Parser) : constants (advance P) = constants P.
Proof. unfold advance. destruct (next_token (lexer P)). reflexivity. Qed.

Lemma eat_constants (t : TokenType) (P P' : Parser) :
  eat t P = Ok P' -> constants P' = constants P.
Proof.
  unfold eat. destruct (is_type (current_type P) t); [|discriminate].
  intros E. injection E as <-. apply constants_advance.
Qed.

Lemma eat_optional_constants (t : TokenType) (P P' : Parser) :
  eat_optional t P = Ok P' -> constants P' = constants P.
Proof.
  unfold eat_optional. destruct (is_type (current_type P) t).
  - apply eat_constants.
  - intros E. injection E as <-. reflexivity.
Qed.

Lemma eat_optional_spec (t : TokenType) (P : Parser) :
  eat_optional t P =
  Ok (if is_type (current_type P) t then advance P else P).
Proof.
  unfold eat_optional, eat. destruct (is_type (current_type P) t); reflexivity.
Qed.

Lemma eat_optional_semicolon (P : Parser) :
  eat_optional SEMICOLON P = Ok (skip_semicolon P).
Proof. apply eat_optional_spec. Qed.

Lemma constants_skip_semicolon (P : Parser) :
  constants (skip_semicolon P) = constants P.
Proof.
  unfold skip_semicolon. destruct (is_type _ _); auto using constants_advance.
Qed.

(** A step that binds its result; used to take [bind] apart. *)
Lemma bind_ok {A B : Type} (m : Res A) (k : A -> Res B) (b : B) :
  bind m k = Ok b -> exists a, m = Ok a /\ k a = Ok b.
Proof. destruct m; simpl; try discriminate. eauto. Qed.

(** ** The constant table is written by [parse] only *)

(** Taking a successful run apart, one step at a time. *)
Ltac bind_inv H :=
  let a := fresh "a" in
  let Ha := fresh "Ha" in
  apply bind_ok in H; destruct H as (a & Ha & H);
  match type of a with
  | prod _ _ => destruct a as [? ?]
  | _ => idtac
  end;
  cbn beta iota in H.

Ltac run_inv H :=
  repeat
    (match type of H with
     | bind _ _ = Ok _ => bind_inv H
     | (if ?c then _ else _) = Ok _ => destruct c eqn:?; try discriminate H
     | match ?x with _ => _ end = Ok _ => destruct x eqn:?; try discriminate H
     end);
  try (injection H as ? ?; subst).

Ltac constants_eq :=
  repeat match goal with
    | H : eat _ _ = Ok _ |- _ => apply eat_constants in H
    | H : eat_optional _ _ = Ok _ |- _ => apply eat_optional_constants in H
    end;
  try rewrite constants_advance in *;
  congruence.

Lemma Parser_parse_expression_constants (P : Parser) (v : Value) (P' : Parser) :
  Parser_parse_expression P = Ok (v, P') -> constants P' = constants P.
Proof.
  unfold Parser_parse_expression. intros H. run_inv H; constants_eq.
Qed.

Lemma parse_constants (f : nat) :
  (forall P v P', _parse_value f P = Ok (v, P') -> constants P' = constants P) /\
  (forall P v P', _parse_list f P = Ok (v, P') -> constants P' = constants P) /\
  (forall P acc r P',
     _parse_list_loop f P acc = Ok (r, P') -> constants P' = constants P) /\
  (forall P v P', _parse_struct f P = Ok (v, P') -> constants P' = constants P) /\
  (forall P acc r P',
     _parse_struct_loop f P acc = Ok (r, P') -> constants P' = constants P) /\
  (forall P v P', _parse_chr f P = Ok (v, P') -> constants P' = constants P).
Proof.
  induction f as [|f (IHv & IHl & IHll & IHs & IHsl & IHc)].
  { repeat split; intros; discriminate. }
  repeat split.
  - intros P v P' H. simpl in H.
    destruct (tok_type (current_token P)); try discriminate;
      eauto using Parser_parse_expression_constants;
      run_inv H; constants_eq.
  - intros P v P' H. simpl in H. run_inv H.
    match goal with X : _parse_list_loop _ _ _ = _ |- _ => apply IHll in X end.
    constants_eq.
  - intros P acc r P' H. simpl in H. run_inv H; [|reflexivity].
    match goal with X : _parse_value _ _ = _ |- _ => apply IHv in X end.
    apply IHll in H. constants_eq.
  - intros P v P' H. simpl in H. run_inv H.
    match goal with X : _parse_struct_loop _ _ _ = _ |- _ => apply IHsl in X end.
    constants_eq.
  - intros P acc r P' H. simpl in H. run_inv H; [| |reflexivity].
    + apply IHsl in H. constants_eq.
    + match goal with X : _parse_value _ _ = _ |- _ => apply IHv in X end.
      apply IHsl in H. constants_eq.
  - intros P v P' H. simpl in H. bind_inv H. bind_inv H. bind_inv H.
    match goal with X : _parse_value _ _ = _ |- _ => apply IHv in X end.
    match goal with
    | X : eat RPAREN _ = Ok ?R |- _ =>
        assert (constants R = constants P) by constants_eq
    end.
    destruct (as_int _); run_inv H; congruence.
Qed.

Lemma _parse_value_constants (f : nat) (P : Parser) (v : Value) (P' : Parser) :
  _parse_value f P = Ok (v, P') -> constants P' = constants P.
Proof. apply parse_constants. Qed.

(** A statement writes one entry of the document: the one of its name. *)
Lemma parse_statement_frame
    (f : nat) (P : Parser) (result : dict) (P' : Parser) (result' : dict)
    (y : str) :
  parse_statement f P result = Ok (result', P') ->
  current_type P = NAME ->
  y <> tok_value (current_token P) ->
  dict_get y result' = dict_get y result.
Proof.
  intros H Hname Hy. unfold parse_statement in H. rewrite Hname in H.
  change (is_type NAME SEMICOLON) with false in H.
  change (is_type NAME NAME) with true in H. cbv iota in H.
  assert (Hk : str_eqb (tok_value (current_token P)) y = false).
  { destruct (str_eqb _ y) eqn:E; [|reflexivity].
    apply str_eqb_eq in E. congruence. }
  run_inv H; apply dict_get_set_other; exact Hk.
Qed.






(** ** Bracket expressions *)

(** Floor division: the quotient is the largest integer whose product with
    a positive divisor does not exceed the dividend, and symmetrically for
    a negative divisor. *)
Lemma floor_div_bounds (a b : Z) :
  ((0 < b -> b * (a / b) <= a < b * (a / b + 1)) /\
   (b < 0 -> b * (a / b + 1) < a <= b * (a / b)))%Z.
Proof.
  split; intros Hb.
  - pose proof (Z.div_mod a b ltac:(lia)) as E.
    pose proof (Z.mod_pos_bound a b Hb). lia.
  - pose proof (Z.div_mod a b ltac:(lia)) as E.
    pose proof (Z.mod_neg_bound a b Hb). lia.
Qed.

(** What a bracket expression evaluates to: an integer, or, in the
    single-operand form, the value that the constant table holds for the
    argument. *)
Lemma Parser_parse_expression_result (P : Parser) (v : Value) (P' : Parser) :
  Parser_parse_expression P = Ok (v, P') ->
  (exists z : Z, v = VInt z) \/
  (exists op field1 : str,
     split (strip (slice_1_m1 (tok_value (current_token P)))) = [op; field1] /\
     dict_get (strip field1) (constants P) = Some v).
Proof.
  unfold Parser_parse_expression. intros H. bind_inv H.
  apply eat_constants in Ha.
  destruct (split _) as [|op [|field1 more]]; try discriminate.
  destruct (negb _); [discriminate|].
  bind_inv H. rewrite Ha in Ha0. destruct more as [|field2 more].
  - injection H as <- _. unfold resolve_argument in Ha0.
    destruct (dict_get _ _) as [c|] eqn:E.
    + injection Ha0 as <-. right. eauto.
    + left. unfold int_of in Ha0.
      destruct (startswith _ _); destruct (py_int _ _);
        try discriminate; injection Ha0 as <-; eauto.
  - bind_inv H. destruct (as_int _); [|discriminate].
    destruct (as_int _); [|discriminate].
    injection H as <- _. eauto.
Qed.

(** ** Fuel

    A run that ends with a value or with an exception ends the same way
    with any larger amount of fuel. *)

Lemma refines_refl {A : Type} (r : Res A) : refines r r.
Proof. intros _. reflexivity. Qed.

Lemma refines_out_of_fuel {A : Type} (r : Res A) : refines OutOfFuel r.
Proof. intros H. contradiction. Qed.

Lemma bind_refines {A B : Type} (m m' : Res A) (k k' : A -> Res B) :
  refines m m' -> (forall a, refines (k a) (k' a)) ->
  refines (bind m k) (bind m' k').
Proof.
  unfold refines. intros Hm Hk H. destruct m; simpl in *; try congruence.
  - rewrite Hm by discriminate. simpl. apply Hk. exact H.
  - rewrite Hm by discriminate. reflexivity.
Qed.

Ltac refines_step :=
  first
    [ apply refines_refl
    | match goal with
      | H : forall P, refines _ _ |- _ => apply H
      | H : forall P acc, refines _ _ |- _ => apply H
      end
    | apply bind_refines; [ | intros ? ]
    | match goal with
      | |- refines (let '(_, _) := ?x in _) _ => destruct x
      | |- refines (if ?c then _ else _) _ => destruct c
      | |- refines (match ?x with _ => _ end) _ => destruct x
      end ].

Lemma fuel_refines_S (f f' : nat) :
  fuel_refines f f' -> fuel_refines (S f) (S f').
Proof.
  intros (Hv & Hl & Hll & Hs & Hsl & Hc).
  repeat split; intros; simpl; repeat refines_step.
Qed.

Lemma fuel_refines_le (f f' : nat) : f <= f' -> fuel_refines f f'.
Proof.
  revert f'. induction f as [|f IH]; intros f' Hle.
  - repeat split; intros; apply refines_out_of_fuel.
  - destruct f' as [|f']; [lia|]. apply fuel_refines_S, IH. lia.
Qed.

Lemma _parse_value_fuel
    (f f' : nat) (P : Parser) (v : Value) (P' : Parser) :
  _parse_value f P = Ok (v, P') -> f <= f' -> _parse_value f' P = Ok (v, P').
Proof.
  intros H Hle. destruct (fuel_refines_le f f' Hle) as (Hv & _).
  rewrite <- H. apply Hv. rewrite H. discriminate.
Qed.

Lemma _parse_list_loop_fuel
    (f f' : nat) (P : Parser) (acc r : list Value) (P' : Parser) :
  _parse_list_loop f P acc = Ok (r, P') -> f <= f' ->
  _parse_list_loop f' P acc = Ok (r, P').
Proof.
  intros H Hle. destruct (fuel_refines_le f f' Hle) as (_ & _ & Hll & _).
  rewrite <- H. apply Hll. rewrite H. discriminate.
Qed.

Lemma parse_statement_fuel (f f' : nat) (P : Parser) (result : dict) :
  f <= f' -> refines (parse_statement f P result) (parse_statement f' P result).
Proof.
  intros Hle. destruct (fuel_refines_le f f' Hle) as (Hv & _ & _ & Hs & _ & _).
  unfold parse_statement. repeat refines_step.
Qed.

(** ** List and struct literals *)

Lemma _parse_value_ok_type
    (f : nat) (P : Parser) (v : Value) (P' : Parser) :
  _parse_value f P = Ok (v, P') ->
  current_type P <> RPAREN /\ current_type P <> EOF.
Proof.
  destruct f as [|f]; [discriminate|]. simpl. unfold current_type.
  destruct (tok_type (current_token P)); intros H; try discriminate H;
    split; discriminate.
Qed.

Lemma _parse_list_loop_elements
    (f : nat) (P : Parser) (vs : list Value) (P' : Parser) :
  Elements f P vs P' ->
  forall acc : list Value,
    _parse_list_loop (f + List.length vs + 1) P acc = Ok (acc ++ vs, P').
Proof.
  induction 1 as [P Hend | P v P1 vs P' Hv Hc _ IH | P v P1 vs P' Hv Hc _ IH];
    intros acc.
  - replace (f + List.length (@nil Value) + 1) with (S f) by (simpl; lia).
    simpl. rewrite Hend, app_nil_r. reflexivity.
  - replace (f + List.length (v :: vs) + 1)
      with (S (f + List.length vs + 1)) by (simpl; lia).
    destruct (_parse_value_ok_type _ _ _ _ Hv) as [Hr He].
    apply is_type_false in Hr, He. simpl. rewrite Hr, He. cbn [negb andb].
    rewrite (_parse_value_fuel _ (f + List.length vs + 1) _ _ _ Hv) by lia.
    cbn [bind]. rewrite eat_optional_spec, Hc, is_type_refl. cbn [bind].
    rewrite IH, <- app_assoc. reflexivity.
  - replace (f + List.length (v :: vs) + 1)
      with (S (f + List.length vs + 1)) by (simpl; lia).
    destruct (_parse_value_ok_type _ _ _ _ Hv) as [Hr He].
    apply is_type_false in Hr, He. simpl. rewrite Hr, He. cbn [negb andb].
    rewrite (_parse_value_fuel _ (f + List.length vs + 1) _ _ _ Hv) by lia.
    cbn [bind]. rewrite eat_optional_spec.
    apply is_type_false in Hc. rewrite Hc. cbn [bind].
    rewrite IH, <- app_assoc. reflexivity.
Qed.

Lemma _parse_struct_loop_stop (f : nat) (P : Parser) (result : dict) :
  current_type P = EOF \/ current_type P = STRUCT_END ->
  _parse_struct_loop (S f) P result = Ok (result, P).
Proof. intros [E|E]; simpl; rewrite E; reflexivity. Qed.

(** ** The lexer moves forward *)

Lemma moves_refl (L : Lexer) : moves L L.
Proof. split; auto. Qed.

Lemma moves_trans (L1 L2 L3 : Lexer) : moves L1 L2 -> moves L2 L3 -> moves L1 L3.
Proof. intros [E1 H1] [E2 H2]. split; [congruence|lia]. Qed.

Lemma advances_moves (L1 L2 L3 : Lexer) :
  advances L1 L2 -> moves L2 L3 -> advances L1 L3.
Proof. intros [E1 H1] [E2 H2]. split; [congruence|lia]. Qed.

Lemma step_char_advances (c : ascii) (L : Lexer) : advances L (step_char c L).
Proof. unfold step_char. destruct (char_eqb c newline); split; simpl; auto. Qed.

Lemma rest_length (L : Lexer) : len (rest L) = len (text L) - pos L.
Proof. unfold rest, len. apply length_skipn. Qed.

Lemma rest_cons_lt (L : Lexer) (c : ascii) (r : str) :
  rest L = c :: r -> pos L < len (text L).
Proof.
  intros E. pose proof (rest_length L) as H. rewrite E in H.
  simpl in H. lia.
Qed.

Lemma skip_line_comment_loop_moves (r : str) (L : Lexer) :
  moves L (skip_line_comment_loop r L).
Proof.
  revert L. induction r as [|c r IH]; intros L; simpl.
  - apply moves_refl.
  - destruct (char_eqb c newline); [apply moves_refl|].
    eapply moves_trans; [|apply IH]. split; simpl; auto.
Qed.

Lemma _skip_line_comment_advances (L : Lexer) (r : str) :
  rest L = "#" :: r -> advances L (_skip_line_comment L).
Proof.
  intros E. unfold _skip_line_comment. rewrite E. simpl.
  match goal with |- context [skip_line_comment_loop r ?X] =>
    pose proof (skip_line_comment_loop_moves r X) as [Ht Hp] end.
  simpl in Ht, Hp.
  destruct (_ <? _); split; simpl; auto; lia.
Qed.

Lemma skip_whitespace_loop_moves (r : str) (L : Lexer) :
  moves L (skip_whitespace_loop r L).
Proof.
  revert L. induction r as [|c r IH]; intros L; simpl.
  - apply moves_refl.
  - destruct (isspace c); [|apply moves_refl].
    eapply moves_trans; [|apply IH].
    destruct (step_char_advances c L). split; auto; lia.
Qed.

Lemma _skip_whitespace_advances (L : Lexer) (c : ascii) (r : str) :
  rest L = c :: r -> isspace c = true -> advances L (_skip_whitespace L).
Proof.
  intros E Hc. unfold _skip_whitespace. rewrite E. simpl. rewrite Hc.
  eapply advances_moves;
    [apply step_char_advances|apply skip_whitespace_loop_moves].
Qed.

Lemma skip_multiline_comment_loop_moves (r : str) (L : Lexer) :
  moves L (skip_multiline_comment_loop r L).
Proof.
  revert L. induction r as [|c r IH]; intros L; simpl.
  - apply moves_refl.
  - destruct r as [|d r']; [apply moves_refl|].
    destruct (char_eqb c "-" && char_eqb d "}").
    + split; simpl; auto; lia.
    + eapply moves_trans; [|apply IH].
      destruct (step_char_advances c L). split; auto; lia.
Qed.

Lemma _skip_multiline_comment_advances (L : Lexer) :
  advances L (_skip_multiline_comment L).
Proof.
  unfold _skip_multiline_comment.
  match goal with |- context [skip_multiline_comment_loop ?r ?X] =>
    pose proof (skip_multiline_comment_loop_moves r X) as [Ht Hp] end.
  simpl in Ht, Hp. split; [exact Ht|lia].
Qed.

Lemma bracket_scan_ge (r : str) (e : nat) (count : Z) :
  e <= fst (bracket_scan r e count).
Proof.
  revert e count. induction r as [|c r IH]; intros e count; simpl; auto.
  destruct (char_eqb c "[").
  - specialize (IH (S e) (count + 1)%Z). lia.
  - destruct (char_eqb c "]").
    + destruct (count - 1 =? 0)%Z; simpl; auto.
      specialize (IH (S e) (count - 1)%Z). lia.
    + specialize (IH (S e) count). lia.
Qed.

Lemma Lexer_parse_expression_advances (L : Lexer) (t : Token) (L' : Lexer) :
  Lexer_parse_expression L = Some (t, L') ->
  advances L L' /\ tok_type t = LBRACK.
Proof.
  unfold Lexer_parse_expression.
  pose proof (bracket_scan_ge (rest L) (pos L) 0%Z) as Hge.
  destruct (bracket_scan (rest L) (pos L) 0%Z) as [e count]. simpl in Hge.
  destruct (_ || _); [discriminate|].
  destruct (_ && _); [|discriminate].
  intros H. injection H as <- <-. repeat split; simpl; auto; lia.
Qed.

Lemma _match_keyword_advances (L : Lexer) (t : Token) (L' : Lexer) :
  _match_keyword L = Some (t, L') ->
  advances L L' /\ tok_type t <> EOF.
Proof.
  unfold _match_keyword.
  destruct (find _ patterns) as [[pattern ttype]|] eqn:Hfind.
  - apply find_some in Hfind. destruct Hfind as [Hin _].
    intros H. injection H as <- <-. simpl.
    assert (Hp : 0 < len pattern /\ ttype <> EOF).
    { simpl in Hin.
      repeat (destruct Hin as [Hin|Hin];
              [injection Hin as <- <-; split; [simpl; lia|discriminate]|]).
      contradiction. }
    destruct Hp. repeat split; simpl; auto; lia.
  - unfold match_name. destruct (rest L) as [|c r]; [discriminate|].
    destruct (is_name_start c); [|discriminate].
    intros H. injection H as <- <-. repeat split; simpl; auto; try lia.
    discriminate.
Qed.

Lemma match_number_nonempty (r value : str) :
  match_number r = Some value -> 0 < len value.
Proof.
  unfold match_number.
  destruct r as [|z [|x r']].
  - simpl. discriminate.
  - simpl. destruct (is_digit z); [|discriminate].
    intros H. injection H as <-. simpl. lia.
  - destruct (char_eqb z "0" && (char_eqb x "x" || char_eqb x "X")).
    + destruct (take_while is_hex_digit r') as [|h hs].
      * destruct (take_while is_digit (z :: x :: r')) as [|d ds];
          [discriminate|].
        intros H. injection H as <-. simpl. lia.
      * intros H. injection H as <-. simpl. lia.
    + destruct (take_while is_digit (z :: x :: r')) as [|d ds];
        [discriminate|].
      intros H. injection H as <-. simpl. lia.
Qed.

Lemma _parse_number_advances (L : Lexer) (t : Token) (L' : Lexer) :
  _parse_number L = Some (t, L') ->
  advances L L' /\ tok_type t <> EOF.
Proof.
  unfold _parse_number.
  destruct (match_number (rest L)) as [value|] eqn:E; [|discriminate].
  apply match_number_nonempty in E.
  intros H. injection H as <- <-. split.
  - split; simpl; [reflexivity|lia].
  - cbn [tok_type].
    match goal with |- (if ?c then _ else _) <> _ => destruct c end;
      discriminate.
Qed.

Lemma string_scan_moves
    (r : str) (quote : ascii) (start sl sc : nat) (L : Lexer) :
  moves L (snd (string_scan r quote start sl sc L)) /\
  (forall t, fst (string_scan r quote start sl sc L) = Some t ->
             tok_type t = STRING).
Proof.
  revert L. induction r as [|c r IH]; intros L; simpl.
  - split; [apply moves_refl|discriminate].
  - destruct (_ && _); simpl.
    + split; [split; simpl; auto|].
      intros t H. injection H as <-. reflexivity.
    + destruct (IH (step_char c L)) as [Hm Ht]. split; [|exact Ht].
      eapply moves_trans; [|exact Hm].
      destruct (step_char_advances c L). split; auto; lia.
Qed.

Lemma _parse_string_moves (L : Lexer) :
  moves L (snd (_parse_string L)) /\
  (forall t, fst (_parse_string L) = Some t -> tok_type t = STRING).
Proof.
  unfold _parse_string. destruct (negb _); simpl.
  - split; [apply moves_refl|discriminate].
  - match goal with |- context [string_scan ?r ?q ?a ?b ?c ?X] =>
      destruct (string_scan_moves r q a b c X) as [[Ht Hp] Hs] end.
    simpl in Ht, Hp. split; [|exact Hs]. split; [exact Ht|lia].
Qed.

Lemma lexed_after (L L1 : Lexer) (t : Token) (L' : Lexer) :
  advances L L1 -> pos L < len (text L) -> lexed L1 t L' -> lexed L t L'.
Proof.
  intros [Et Hp] Hlt [[Et' Hp'] H]. split; [split; [congruence|lia]|].
  destruct H as [H|(H1 & H2 & H3)]; [left; exact H|right].
  repeat split; auto; lia.
Qed.

Lemma next_token_loop_enough (fuel : nat) (L : Lexer) :
  len (rest L) < fuel ->
  exists (t : Token) (L' : Lexer),
    next_token_loop fuel L = Some (t, L') /\ lexed L t L'.
Proof.
  revert L. induction fuel as [|fuel IH]; intros L Hfuel; [lia|].
  assert (Hnext : forall L1, advances L L1 -> pos L < len (text L) ->
            exists t L', next_token_loop fuel L1 = Some (t, L') /\ lexed L t L').
  { intros L1 Hadv Hlt.
    destruct (IH L1) as (t & L' & Hrun & Hlexed).
    - destruct Hadv as [Et Hp]. rewrite rest_length in *. rewrite Et. lia.
    - exists t, L'. split; [exact Hrun|]. eapply lexed_after; eauto. }
  cbn [next_token_loop].
  destruct (rest L) as [|char r] eqn:Erest.
  { eexists _, L. split; [reflexivity|]. split; [apply moves_refl|].
    left. split; [reflexivity|exact Erest]. }
  pose proof (rest_cons_lt L char r Erest) as Hlt.
  destruct (char_eqb char "#") eqn:Ehash.
  { apply char_eqb_eq in Ehash. subst char.
    apply Hnext; [eapply _skip_line_comment_advances; eauto|exact Hlt]. }
  destruct (isspace char) eqn:Espace.
  { apply Hnext; [eapply _skip_whitespace_advances; eauto|exact Hlt]. }
  destruct (_ && _).
  { apply Hnext; [apply _skip_multiline_comment_advances|exact Hlt]. }
  assert (Htoken : forall t L', advances L L' -> tok_type t <> EOF ->
                     lexed L t L').
  { intros t L' [Et Hp] Ht. split; [split; [exact Et|lia]|].
    right. auto. }
  destruct (if char_eqb (char_at L (pos L)) "[" then Lexer_parse_expression L
            else None) as [[t L']|] eqn:Eexpr.
  { exists t, L'. split; [reflexivity|].
    destruct (char_eqb _ "["); [|discriminate].
    apply Lexer_parse_expression_advances in Eexpr. destruct Eexpr as [Ha Ht].
    apply Htoken; [exact Ha|rewrite Ht; discriminate]. }
  destruct (_match_keyword L) as [[t L']|] eqn:Ekey.
  { exists t, L'. split; [reflexivity|].
    apply _match_keyword_advances in Ekey. destruct Ekey. auto. }
  destruct (_parse_number L) as [[t L']|] eqn:Enum.
  { exists t, L'. split; [reflexivity|].
    apply _parse_number_advances in Enum. destruct Enum. auto. }
  pose proof (_parse_string_moves L) as [[Et Hp] Hs].
  destruct (_parse_string L) as [[t|] L'] eqn:Estr; simpl in Et, Hp, Hs.
  - exists t, L'. split; [reflexivity|].
    split; [split; assumption|]. 
    destruct (Nat.eq_dec (pos L') (pos L)) as [Heq|Hne].
    + exfalso. revert Estr. unfold _parse_string.
      destruct (negb _); [discriminate|].
      match goal with |- context [string_scan ?a ?q ?b ?c ?d ?X] =>
        pose proof (string_scan_moves a q b c d X) as [[_ Hp'] _];
        destruct (string_scan a q b c d X) as [o L2] end.
      simpl in Hp'. intros H. injection H as _ ->. lia.
    + right. rewrite (Hs t eq_refl). repeat split; [discriminate|lia|lia].
  - apply Hnext; [|exact Hlt]. split; simpl; [exact Et|lia].
Qed.

Lemma next_token_lexed (L : Lexer) :
  lexed L (fst (next_token L)) (snd (next_token L)) /\
  next_token_loop (S (len (rest L))) L = Some (next_token L).
Proof.
  unfold next_token.
  destruct (next_token_loop_enough (S (len (rest L))) L) as (t & L' & Hrun & H);
    [lia|].
  rewrite Hrun. auto.
Qed.

(** More fuel than [next_token] gives its loop changes nothing. *)
Lemma next_token_loop_fuel (fuel : nat) (L : Lexer) :
  len (rest L) < fuel -> next_token_loop fuel L = Some (next_token L).
Proof.
  intros Hfuel.
  assert (Hmono : forall f g L0 r, next_token_loop f L0 = Some r -> f <= g ->
                    next_token_loop g L0 = Some r).
  { induction f as [|f IHf]; intros g L0 r H Hle; [discriminate|].
    destruct g as [|g]; [lia|]. cbn [next_token_loop] in *.
    assert (Hf : forall L1, next_token_loop f L1 = Some r ->
                   next_token_loop g L1 = Some r)
      by (intros; apply IHf; [assumption|lia]).
    destruct (rest L0); auto.
    destruct (char_eqb _ _); auto.
    destruct (isspace _); auto.
    destruct (_ && _); auto.
    destruct (if char_eqb _ _ then _ else _); auto.
    destruct (_match_keyword L0); auto.
    destruct (_parse_number L0); auto.
    destruct (_parse_string L0) as [[?|] ?]; auto. }
  destruct (next_token_lexed L) as [_ H].
  destruct (Nat.le_gt_cases fuel (S (len (rest L)))) as [Hle|Hgt].
  - destruct (next_token_loop_enough fuel L Hfuel) as (t & L' & Hrun & _).
    rewrite Hrun. rewrite (Hmono _ _ _ _ Hrun Hle) in H. exact H.
  - apply (Hmono _ _ _ _ H). lia.
Qed.

(** ** The fuel is enough

    Passing a token that is not [EOF] lowers [remaining]; every call and
    every round of a loop does so before it calls again, so fuel in
    proportion to [remaining] is never used up. *)

Lemma advance_remaining (P : Parser) :
  current_type P <> EOF -> remaining (advance P) < remaining P.
Proof.
  intros Hcur. unfold remaining at 2. apply is_type_false in Hcur.
  rewrite Hcur. unfold advance.
  destruct (next_token_lexed (lexer P)) as [[[Et Hp] H] _].
  destruct (next_token (lexer P)) as [t L']. simpl in Et, Hp, H.
  unfold remaining, current_type. simpl.
  destruct H as [[Ht Hr]|(Ht & Hlt & Hlen)].
  - rewrite Ht, Hr. simpl. lia.
  - apply is_type_false in Ht. rewrite Ht.
    rewrite !rest_length, Et. lia.
Qed.

Lemma within_ok {A : Type} (a : A) (P : Parser) (n : nat) :
  remaining P < n -> within (Ok (a, P)) n.
Proof.
  intros H. split; [discriminate|]. intros a' P' E. injection E as _ <-. exact H.
Qed.

Lemma within_raise {A : Type} (e : Exception) (n : nat) :
  within (@Raise (A * Parser) e) n.
Proof. split; discriminate. Qed.

Lemma within_weaken {A : Type} (r : Res (A * Parser)) (n m : nat) :
  within r n -> n <= m -> within r m.
Proof.
  intros [H1 H2] Hle. split; [exact H1|].
  intros a P' E. specialize (H2 a P' E). lia.
Qed.

Lemma within_bind_eat {A : Type} (t : TokenType) (P : Parser)
    (k : Parser -> Res (A * Parser)) (n : nat) :
  t <> EOF ->
  (forall P1, remaining P1 < remaining P -> within (k P1) n) ->
  within (bind (eat t P) k) n.
Proof.
  intros Ht Hk. unfold eat.
  destruct (is_type (current_type P) t) eqn:E; simpl.
  - apply Hk, advance_remaining. apply is_type_true in E. congruence.
  - split; discriminate.
Qed.

Lemma within_bind_eat_optional {A : Type} (t : TokenType) (P : Parser)
    (k : Parser -> Res (A * Parser)) (n : nat) :
  t <> EOF ->
  (forall P1, remaining P1 <= remaining P -> within (k P1) n) ->
  within (bind (eat_optional t P) k) n.
Proof.
  intros Ht Hk. rewrite eat_optional_spec. simpl.
  destruct (is_type (current_type P) t) eqn:E.
  - apply Hk. apply Nat.lt_le_incl, advance_remaining.
    apply is_type_true in E. congruence.
  - apply Hk. lia.
Qed.

Lemma within_bind {A B : Type} (m : Res (B * Parser))
    (k : B * Parser -> Res (A * Parser)) (n1 n : nat) :
  within m n1 ->
  (forall b P1, remaining P1 < n1 -> within (k (b, P1)) n) ->
  within (bind m k) n.
Proof.
  intros [Hm1 Hm2] Hk. destruct m as [[b P1]| |]; simpl.
  - apply Hk. eapply Hm2. reflexivity.
  - split; discriminate.
  - contradiction.
Qed.

Lemma within_bind_pure {A X : Type} (m : Res X)
    (k : X -> Res (A * Parser)) (n : nat) :
  m <> OutOfFuel -> (forall x, within (k x) n) -> within (bind m k) n.
Proof.
  intros Hm Hk. destruct m; simpl; [apply Hk|split; discriminate|contradiction].
Qed.

Lemma int_of_finishes (base : Z) (t : str) : int_of base t <> OutOfFuel.
Proof. unfold int_of. destruct (py_int base t); discriminate. Qed.

Lemma py_chr_finishes (z : Z) : py_chr z <> OutOfFuel.
Proof. unfold py_chr. repeat destruct (_ || _); discriminate. Qed.

Lemma resolve_argument_finishes (consts : dict) (field : str) :
  resolve_argument consts field <> OutOfFuel.
Proof.
  unfold resolve_argument. destruct (dict_get _ _); [discriminate|].
  destruct (startswith _ _); apply int_of_finishes.
Qed.

Lemma Parser_parse_expression_within (P : Parser) :
  within (Parser_parse_expression P) (remaining P).
Proof.
  unfold Parser_parse_expression.
  apply within_bind_eat; [discriminate|]. intros P1 H1.
  destruct (split _) as [|op [|field1 more]]; try apply within_raise.
  destruct (negb _); [apply within_raise|].
  apply within_bind_pure; [apply resolve_argument_finishes|]. intros arg1.
  destruct more as [|field2 more]; [apply within_ok; exact H1|].
  apply within_bind_pure; [apply resolve_argument_finishes|]. intros arg2.
  destruct (as_int arg1), (as_int arg2);
    try apply within_raise. apply within_ok. exact H1.
Qed.

Lemma fuel_enough (f : nat) :
  (forall P, 3 * remaining P + 1 <= f ->
             within (_parse_value f P) (remaining P)) /\
  (forall P, 3 * remaining P <= f -> 1 <= f ->
             within (_parse_list f P) (remaining P)) /\
  (forall P acc, 3 * remaining P + 2 <= f ->
                 within (_parse_list_loop f P acc) (S (remaining P))) /\
  (forall P, 3 * remaining P <= f -> 1 <= f ->
             within (_parse_struct f P) (remaining P)) /\
  (forall P acc, 3 * remaining P + 2 <= f ->
                 within (_parse_struct_loop f P acc) (S (remaining P))) /\
  (forall P, 3 * remaining P <= f -> 1 <= f ->
             within (_parse_chr f P) (remaining P)).
Proof.
  induction f as [|f (IHv & IHl & IHll & IHs & IHsl & IHc)].
  { repeat split; intros; lia. }
  assert (Hpos : forall P, current_type P <> EOF -> 1 <= remaining P).
  { intros P H. unfold remaining. apply is_type_false in H. rewrite H. lia. }
  split; [|split; [|split; [|split; [|split]]]].
  - intros P Hf. simpl.
    destruct (tok_type (current_token P)) eqn:Et; try apply within_raise;
      try (assert (Hcur : current_type P <> EOF)
             by (unfold current_type; rewrite Et; discriminate);
           apply Hpos in Hcur).
    + destruct (dict_get _ _);
        (apply within_bind_eat; [discriminate|]); intros P1 H1;
        apply within_ok; exact H1.
    + apply within_bind_pure; [apply int_of_finishes|]. intros v.
      apply within_bind_eat; [discriminate|]. intros P1 H1.
      apply within_ok; exact H1.
    + apply within_bind_pure; [apply int_of_finishes|]. intros v.
      apply within_bind_eat; [discriminate|]. intros P1 H1.
      apply within_ok; exact H1.
    + apply within_bind_eat; [discriminate|]. intros P1 H1.
      apply within_ok; exact H1.
    + apply within_bind_eat; [discriminate|]. intros P1 H1.
      apply within_ok; exact H1.
    + apply within_bind_eat; [discriminate|]. intros P1 H1.
      apply within_ok; exact H1.
    + apply IHl; lia.
    + apply IHs; lia.
    + apply Parser_parse_expression_within.
    + apply IHc; lia.
  - intros P Hf _. simpl.
    apply within_bind_eat; [discriminate|]. intros P1 H1.
    eapply within_bind; [apply IHll; lia|]. intros result P2 H2. cbn beta iota.
    apply within_bind_eat; [discriminate|]. intros P3 H3.
    apply within_ok. lia.
  - intros P acc Hf. simpl.
    destruct (_ && _); [|apply within_ok; lia].
    eapply within_bind; [apply IHv; lia|]. intros v P1 H1. cbn beta iota.
    apply within_bind_eat_optional; [discriminate|]. intros P2 H2.
    eapply within_weaken; [apply IHll; lia|lia].
  - intros P Hf _. simpl.
    apply within_bind_eat; [discriminate|]. intros P1 H1.
    eapply within_bind; [apply IHsl; lia|]. intros result P2 H2. cbn beta iota.
    apply within_bind_eat; [discriminate|]. intros P3 H3.
    apply within_ok. lia.
  - intros P acc Hf. simpl.
    destruct (negb (is_type (current_type P) EOF)) eqn:Eeof; simpl;
      [|apply within_ok; lia].
    destruct (negb (is_type (current_type P) STRUCT_END)); simpl;
      [|apply within_ok; lia].
    destruct (negb (is_type (current_type P) NAME)).
    + assert (Hadv : remaining (advance P) < remaining P).
      { apply advance_remaining. apply is_type_false.
        destruct (is_type (current_type P) EOF); [discriminate|reflexivity]. }
      eapply within_weaken; [apply IHsl; lia|lia].
    + apply within_bind_eat; [discriminate|]. intros P1 H1.
      destruct (negb (is_type (current_type P1) ASSIGN));
        [apply within_raise|].
      apply within_bind_eat; [discriminate|]. intros P2 H2.
      eapply within_bind; [apply IHv; lia|]. intros v P3 H3. cbn beta iota.
      apply within_bind_eat_optional; [discriminate|]. intros P4 H4.
      eapply within_weaken; [apply IHsl; lia|lia].
  - intros P Hf _. simpl.
    apply within_bind_eat; [discriminate|]. intros P1 H1.
    eapply within_bind; [apply IHv; lia|]. intros arg P2 H2. cbn beta iota.
    apply within_bind_eat; [discriminate|]. intros P3 H3.
    destruct (as_int arg).
    + apply within_bind_pure; [apply py_chr_finishes|]. intros v.
      apply within_ok. lia.
    + apply within_ok. lia.
Qed.

Lemma parse_statement_within (f : nat) (P : Parser) (result : dict) :
  current_type P <> EOF -> 3 * remaining P + 1 <= f ->
  within (parse_statement f P result) (remaining P).
Proof.
  intros Hcur Hf.
  destruct (fuel_enough f) as (Hv & _ & _ & Hs & _ & _).
  unfold parse_statement.
  destruct (is_type (current_type P) SEMICOLON).
  { apply within_bind_eat; [discriminate|]. intros P1 H1.
    apply within_ok; exact H1. }
  destruct (is_type (current_type P) NAME).
  - apply within_bind_eat; [discriminate|]. intros P1 H1.
    destruct (is_type (current_type P1) DEFINE).
    { apply within_bind_eat; [discriminate|]. intros P2 H2.
      eapply within_bind; [apply Hv; lia|]. intros v P3 H3. cbn beta iota.
      apply within_bind_eat_optional; [discriminate|]. intros P4 H4.
      apply within_ok.
      change (remaining (define (tok_value (current_token P)) v P3))
        with (remaining P3) in H4.
      lia. }
    destruct (is_type (current_type P1) ASSIGN).
    { apply within_bind_eat; [discriminate|]. intros P2 H2.
      eapply within_bind; [apply Hv; lia|]. intros v P3 H3. cbn beta iota.
      apply within_bind_eat_optional; [discriminate|]. intros P4 H4.
      apply within_ok. lia. }
    destruct (is_type (current_type P1) STRUCT_START).
    { eapply within_bind; [apply Hs; lia|]. intros v P2 H2. cbn beta iota.
      apply within_ok. lia. }
    apply within_ok; exact H1.
  - eapply within_bind; [apply Hv; lia|]. intros v P1 H1. cbn beta iota.
    apply within_ok; exact H1.
Qed.

Lemma parse_loop_enough (f : nat) (P : Parser) (result : dict) :
  3 * remaining P + 2 <= f -> parse_loop f P result <> OutOfFuel.
Proof.
  revert P result. induction f as [|f IH]; intros P result Hf; [lia|].
  simpl. destruct (is_type (current_type P) EOF) eqn:E; [discriminate|].
  apply is_type_false in E.
  destruct (parse_statement_within f P result E ltac:(lia)) as [H1 H2].
  destruct (parse_statement f P result) as [[result1 P1]| |]; simpl.
  - apply IH. specialize (H2 result1 P1 eq_refl). lia.
  - discriminate.
  - contradiction.
Qed.

(** [parse] is total: it returns a document or raises an exception. *)
Lemma parse_total (P : Parser) :
  (exists result, parse P = Ok result) \/ (exists e, parse P = Raise e).
Proof.
  pose proof (parse_loop_enough (fuel_for P) P [] ltac:(unfold fuel_for; lia)) as H.
  unfold parse. destruct (parse_loop _ _ _); eauto. contradiction.
Qed.

(** With more fuel than [parse] takes, the result is the one of [parse]. *)
Lemma parse_loop_fuel (f : nat) (P : Parser) :
  fuel_for P <= f -> parse_loop f P [] = parse P.
Proof.
  intros Hle. unfold parse.
  assert (Hmono : forall g g' Q result, g <= g' ->
            refines (parse_loop g Q result) (parse_loop g' Q result)).
  { induction g as [|g IHg]; intros g' Q result Hg;
      [apply refines_out_of_fuel|].
    destruct g' as [|g']; [lia|]. simpl.
    destruct (is_type (current_type Q) EOF); [apply refines_refl|].
    apply bind_refines; [apply parse_statement_fuel; lia|].
    intros [result1 P1]. apply IHg. lia. }
  apply (Hmono _ _ P [] Hle). apply parse_loop_enough. unfold fuel_for. lia.
Qed.

(** ** The token stream ends with [EOF] *)

Lemma tokens_from_enough (fuel : nat) (L : Lexer) :
  len (rest L) < fuel ->
  exists (ts : list Token) (t : Token),
    tokens_from fuel L = ts ++ [t] /\ tok_type t = EOF /\
    Forall (fun x => tok_type x <> EOF) ts.
Proof.
  revert L. induction fuel as [|fuel IH]; intros L Hfuel; [lia|].
  simpl. destruct (next_token_lexed L) as [[[Et Hp] H] _].
  destruct (next_token L) as [t L']. simpl in Et, Hp, H.
  destruct (is_type (tok_type t) EOF) eqn:E.
  - apply is_type_true in E. exists [], t. auto.
  - apply is_type_false in E.
    destruct H as [[Ht _]|(_ & Hlt & Hlen)]; [contradiction|].
    destruct (IH L') as (ts & t' & Hts & Ht' & Hall).
    { rewrite rest_length in *. rewrite Et. lia. }
    exists (t :: ts), t'. rewrite Hts. auto.
Qed.

Lemma tokenize_ends_with_EOF (t : str) :
  exists (ts : list Token) (e : Token),
    tokenize t = ts ++ [e] /\ tok_type e = EOF /\
    Forall (fun x => tok_type x <> EOF) ts.
Proof.
  apply tokens_from_enough. rewrite rest_length. simpl. lia.
Qed.

(** ** Unterminated strings and comments *)

Lemma skipn_cons_S (n : nat) (t : str) (c : ascii) (r : str) :
  skipn n t = c :: r -> skipn (S n) t = r.
Proof.
  revert t. induction n as [|n IH]; intros t E.
  - simpl in E. subst t. reflexivity.
  - destruct t as [|x t]; [discriminate|]. simpl in E. simpl.
    destruct t as [|y t]; [destruct n; discriminate|].
    apply IH in E. exact E.
Qed.

Lemma skipn_nil_S (n : nat) (t : str) : skipn n t = [] -> skipn (S n) t = [].
Proof.
  revert t. induction n as [|n IH]; intros t E.
  - simpl in E. subst t. reflexivity.
  - destruct t as [|x t]; [reflexivity|]. simpl in E.
    change (skipn (S (S n)) (x :: t)) with (skipn (S n) t). apply IH, E.
Qed.

Lemma rest_char_at (L : Lexer) (c : ascii) (r : str) :
  rest L = c :: r -> char_at L (pos L) = c.
Proof.
  unfold rest, char_at. generalize (pos L) as n, (text L) as t.
  induction n as [|n IH]; intros t E.
  - simpl in E. subst t. reflexivity.
  - destruct t as [|x t]; [discriminate|]. simpl in *. apply IH, E.
Qed.

Lemma rest_step_char (L : Lexer) (c d : ascii) (r : str) :
  rest L = d :: r -> rest (step_char c L) = r.
Proof.
  intros E. unfold step_char.
  destruct (char_eqb c newline); unfold rest; simpl;
    apply (skipn_cons_S _ _ _ _ E).
Qed.

(** A scan that finds no closing quote ends at the end of the text. *)
Lemma string_scan_none
    (r : str) (quote : ascii) (start sl sc : nat) (L : Lexer) :
  rest L = r ->
  fst (string_scan r quote start sl sc L) = None ->
  rest (snd (string_scan r quote start sl sc L)) = [].
Proof.
  revert L. induction r as [|c r IH]; intros L Hr; simpl.
  - intros _. exact Hr.
  - destruct (_ && _); [discriminate|].
    apply IH. eapply rest_step_char; eauto.
Qed.

(** At a quote whose string is never closed, [next_token] returns [EOF]
    and leaves nothing of the text to read. *)
Lemma unterminated_string_gives_EOF (L : Lexer) (quote : ascii) (r : str) :
  rest L = quote :: r ->
  quote = squote \/ quote = dquote ->
  fst (_parse_string L) = None ->
  tok_type (fst (next_token L)) = EOF /\ rest (snd (next_token L)) = [].
Proof.
  intros Hrest Hq Hnone.
  assert (Hstr : rest (snd (_parse_string L)) = []).
  { revert Hnone. unfold _parse_string.
    rewrite (rest_char_at _ _ _ Hrest).
    destruct (negb _) eqn:E.
    - destruct Hq; subst quote; discriminate E.
    - apply string_scan_none. reflexivity. }
  unfold next_token. rewrite Hrest.
  change (len (quote :: r)) with (S (len r)).
  cbn [next_token_loop]. rewrite Hrest.
  assert (Hslice : slice (text L) (pos L) (pos L + 2) = firstn 2 (quote :: r)).
  { unfold slice. replace (pos L + 2 - pos L) with 2 by lia.
    fold (rest L). rewrite Hrest. reflexivity. }
  rewrite Hslice, (rest_char_at _ _ _ Hrest).
  assert (Hkey : _match_keyword L = None).
  { unfold _match_keyword. rewrite Hrest.
    destruct Hq; subst quote; reflexivity. }
  assert (Hnum : _parse_number L = None).
  { unfold _parse_number. rewrite Hrest.
    destruct Hq; subst quote; destruct r as [|x r']; reflexivity. }
  rewrite Hkey, Hnum.
  destruct (_parse_string L) as [o L'] eqn:Estr. simpl in Hnone, Hstr.
  subst o.
  assert (Hend : rest (mkLexer (text L') (S (pos L')) (line L') (S (col L')))
                 = []).
  { unfold rest in *. simpl. apply skipn_nil_S, Hstr. }
  destruct Hq; subst quote; simpl;
    try (rewrite andb_false_r); cbn [next_token_loop]; rewrite Hend;
    simpl; auto.
Qed.

Lemma skip_multiline_comment_loop_open (r : str) (L : Lexer) :
  rest L = r -> r <> [] -> has_close r = false ->
  rest (skip_multiline_comment_loop r L) = [last r zero].
Proof.
  revert L. induction r as [|c r IH]; intros L Hr Hne Hclose; [congruence|].
  destruct r as [|d r'].
  - simpl. exact Hr.
  - cbn [skip_multiline_comment_loop]. cbn [has_close] in Hclose.
    apply orb_false_iff in Hclose. destruct Hclose as [Hpair Hclose].
    rewrite Hpair.
    change (last (c :: d :: r') zero) with (last (d :: r') zero).
    apply IH; [eapply rest_step_char; eauto|discriminate|exact Hclose].
Qed.

(** After a block comment that is not closed and has a character after
    its opening marker, the last character of the text is still to be
    read. *)
Lemma unterminated_comment_leaves_last (L : Lexer) (r : str) :
  rest L = "{" :: "-" :: r -> r <> [] -> has_close r = false ->
  rest (_skip_multiline_comment L) = [last r zero].
Proof.
  intros Hrest Hne Hclose. unfold _skip_multiline_comment.
  assert (Hr : rest (mkLexer (text L) (pos L + 2) (line L) (col L + 2)) = r).
  { unfold rest in *. simpl. replace (pos L + 2) with (S (S (pos L))) by lia.
    eapply skipn_cons_S, skipn_cons_S, Hrest. }
  rewrite Hr. apply skip_multiline_comment_loop_open; assumption.
Qed.

(** * The claims of the specification *)

(** C1.  In the single-operand form the evaluator returns what the
    constant table holds for the argument, whatever its kind: with [s]
    bound to a text, [[+ s]] evaluates to that text and the document entry
    built from it is a text, not an integer.  The two-operand form of the
    same expression is rejected with the syntax error for arguments that
    are not numbers. *)
Theorem C1_single_operand_returns_text :
  let consts := [(s "s", VStr (codes (s "hi")))] in
  let P := mkParser (Lexer_init []) (mkToken LBRACK (s "[+ s]") 1 1) consts in
  let Q := mkParser (Lexer_init []) (mkToken LBRACK (s "[+ s 1]") 1 1) consts in
  fmap_value (Parser_parse_expression P) = Ok (VStr (codes (s "hi"))) /\
  fmap_value (Parser_parse_expression Q)
  = Raise (SyntaxError (ArgumentsMustBeNumbers (s "[+ s 1]"))) /\
  parse_text (s "s := 'hi' x := [+ s]")
  = Ok [(s "s", VStr (codes (s "hi"))); (s "x", VStr (codes (s "hi")))].
Proof. repeat split; vm_compute; reflexivity. Qed.

(** C2.  A bracket expression with two operands that resolve to the
    integers [a] and [b] evaluates to [a + b] for [+], [a - b] for [-],
    [a * b] for [*]; for [/] it evaluates to 0 when [b = 0] and otherwise to
    the floor of the quotient (rounded toward negative infinity).  No
    exception is raised. *)
Theorem C2_two_operand_arithmetic
    (P : Parser) (op field1 field2 : str) (more : list str) (a b : Z) :
  current_type P = LBRACK ->
  split (strip (slice_1_m1 (tok_value (current_token P))))
    = op :: field1 :: field2 :: more ->
  resolve_argument (constants P) field1 = Ok (VInt a) ->
  resolve_argument (constants P) field2 = Ok (VInt b) ->
  (op = s "+" ->
     Parser_parse_expression P = Ok (VInt (a + b), advance P)) /\
  (op = s "-" ->
     Parser_parse_expression P = Ok (VInt (a - b), advance P)) /\
  (op = s "*" ->
     Parser_parse_expression P = Ok (VInt (a * b), advance P)) /\
  (op = s "/" -> b = 0%Z ->
     Parser_parse_expression P = Ok (VInt 0, advance P)) /\
  (op = s "/" -> b <> 0%Z ->
     exists q : Z,
       Parser_parse_expression P = Ok (VInt q, advance P) /\
       (0 < b -> b * q <= a < b * (q + 1))%Z /\
       (b < 0 -> b * (q + 1) < a <= b * q)%Z).
Proof.
  intros Hcur Hsplit H1 H2.
  assert (Hrun : forall o, str_in o operators = true ->
            op = o ->
            Parser_parse_expression P
            = Ok (VInt (apply_operator o a b), advance P)).
  { intros o Ho ->. unfold Parser_parse_expression.
    rewrite (eat_current LBRACK P Hcur). cbn [bind].
    rewrite Hsplit. cbv beta iota. rewrite Ho. cbn [negb].
    rewrite constants_advance, H1. cbn [bind].
    rewrite H2. reflexivity. }
  repeat split.
  - intros E. apply (Hrun (s "+") eq_refl E).
  - intros E. apply (Hrun (s "-") eq_refl E).
  - intros E. apply (Hrun (s "*") eq_refl E).
  - intros E ->. apply (Hrun (s "/") eq_refl E).
  - intros E Hb. exists (a / b)%Z. split.
    + rewrite (Hrun (s "/") eq_refl E). unfold apply_operator. simpl.
      destruct (Z.eqb_spec b 0); [contradiction|reflexivity].
    + apply floor_div_bounds.
Qed.

Lemma C2_two_operand_arithmetic_witness :
  let P := Parser_init (Lexer_init (s "[/ -7 2]")) in
  current_type P = LBRACK /\
  Parser_parse_expression P = Ok (VInt (-4), advance P).
Proof.
  intros P. split; [reflexivity|].
  destruct (C2_two_operand_arithmetic P (s "/") (s "-7") (s "2") [] (-7) 2
              eq_refl eq_refl eq_refl eq_refl)
    as (_ & _ & _ & _ & Hdiv).
  destruct (Hdiv eq_refl ltac:(discriminate)) as (q & Hq & Hpos & _).
  assert (q = (-4)%Z) as -> by lia.
  exact Hq.
Defined.

(** C3.  An argument that is neither a constant nor a number makes [int]
    raise [ValueError]: the parse of [x := [+ foo 1]] fails with that
    exception and not with the syntax error of the evaluator, which an
    argument bound to a text does get. *)
Theorem C3_unbound_argument_raises_ValueError :
  resolve_argument [] (s "foo") = Raise ValueError /\
  parse_text (s "x := [+ foo 1]") = Raise ValueError /\
  parse_text (s "x := [+ 1 foo]") = Raise ValueError /\
  parse_text (s "s := 'hi' x := [+ s 1]")
  = Raise (SyntaxError (ArgumentsMustBeNumbers (s "[+ s 1]"))).
Proof. repeat split; vm_compute; reflexivity. Qed.



(** C5.  After a quote that is never closed the scan for the closing
    quote has moved the cursor to the end of the text, so [next_token]
    returns [EOF]: of [a = 'abc b = 1] only [a] and [=] become tokens,
    although [abc b = 1] alone gives four. *)
Theorem C5_unterminated_string_drops_rest :
  let L := mkLexer (s "'abc b = 1") 0 1 1 in
  fst (_parse_string L) = None /\
  pos (snd (_parse_string L)) = len (text L) /\
  tok_type (fst (next_token L)) = EOF /\
  map shape (tokenize (s "a = 'abc b = 1"))
  = [(NAME, s "a"); (ASSIGN, s "="); (EOF, [])] /\
  map shape (tokenize (s "abc b = 1"))
  = [(NAME, s "abc"); (NAME, s "b"); (ASSIGN, s "="); (NUMBER, s "1");
     (EOF, [])].
Proof. repeat split; vm_compute; reflexivity. Qed.

(** C6.  The scan of a block comment stops one character before the end
    of the text: after the unterminated comment of [{- x] the next token is
    the name [x], not [EOF], and [v = 1 {- y] gives a document with an
    entry for [y]. *)
Theorem C6_unterminated_comment_leaves_last_char :
  let L := Lexer_init (s "{- x") in
  pos (_skip_multiline_comment L) = 3 /\
  shape (fst (next_token L)) = (NAME, s "x") /\
  parse_text (s "v = 1 {- y")
  = Ok [(s "v", VInt 1); (s "y", VStr (codes (s "y")))].
Proof. repeat split; vm_compute; reflexivity. Qed.

(** C7.  For a statement that starts with the identifier [name] and whose
    value parses to [value]: after [:=] the statement binds [name] to
    [value] in the constant table and in the document; after [=] it binds
    [name] in the document and leaves the constant table as it was.  In
    both forms a semicolon that follows the value is consumed, and only
    then. *)
Theorem C7_define_and_assign
    (f : nat) (P : Parser) (result : dict) (value : Value) (P3 : Parser) :
  current_type P = NAME ->
  _parse_value f (advance (advance P)) = Ok (value, P3) ->
  let name := tok_value (current_token P) in
  (current_type (advance P) = DEFINE ->
     parse_statement f P result
     = Ok (dict_set name value result, skip_semicolon (define name value P3)) /\
     constants (skip_semicolon (define name value P3))
     = dict_set name value (constants P) /\
     dict_get name (constants (skip_semicolon (define name value P3)))
     = Some value /\
     dict_get name (dict_set name value result) = Some value) /\
  (current_type (advance P) = ASSIGN ->
     parse_statement f P result
     = Ok (dict_set name value result, skip_semicolon P3) /\
     constants (skip_semicolon P3) = constants P /\
     dict_get name (dict_set name value result) = Some value).
Proof.
  intros Hname Hval name.
  pose proof (_parse_value_constants _ _ _ _ Hval) as Hc.
  rewrite !constants_advance in Hc.
  split; intros Hop.
  - repeat split.
    + unfold parse_statement. rewrite Hname. cbn [is_type].
      change (is_type NAME SEMICOLON) with false.
      change (is_type NAME NAME) with true. cbv iota.
      rewrite (eat_current NAME P Hname). cbn [bind].
      rewrite Hop. change (is_type DEFINE DEFINE) with true. cbv iota.
      rewrite (eat_current DEFINE _ Hop). cbn [bind].
      rewrite Hval. cbn [bind]. rewrite eat_optional_semicolon. reflexivity.
    + rewrite constants_skip_semicolon. simpl. rewrite Hc. reflexivity.
    + rewrite constants_skip_semicolon. simpl. apply dict_get_set_same.
    + apply dict_get_set_same.
  - repeat split.
    + unfold parse_statement. rewrite Hname.
      change (is_type NAME SEMICOLON) with false.
      change (is_type NAME NAME) with true. cbv iota.
      rewrite (eat_current NAME P Hname). cbn [bind].
      rewrite Hop. change (is_type ASSIGN DEFINE) with false.
      change (is_type ASSIGN ASSIGN) with true. cbv iota.
      rewrite (eat_current ASSIGN _ Hop). cbn [bind].
      rewrite Hval. cbn [bind]. rewrite eat_optional_semicolon. reflexivity.
    + rewrite constants_skip_semicolon. exact Hc.
    + apply dict_get_set_same.
Qed.

Lemma C7_define_and_assign_witness :
  let P := Parser_init (Lexer_init (s "a := 1; b = 2; c = a")) in
  let Q := skip_semicolon (define (s "a") (VInt 1)
                             (advance (advance (advance P)))) in
  parse_statement 1 P [] = Ok ([(s "a", VInt 1)], Q) /\
  constants Q = [(s "a", VInt 1)] /\
  shape (current_token Q) = (NAME, s "b") /\
  exists Q', parse_statement 1 Q [(s "a", VInt 1)]
             = Ok ([(s "a", VInt 1); (s "b", VInt 2)], Q') /\
             constants Q' = [(s "a", VInt 1)].
Proof.
  intros P Q.
  destruct (C7_define_and_assign 1 P [] (VInt 1) (advance (advance (advance P)))
              eq_refl eq_refl) as [Hdef _].
  destruct (Hdef eq_refl) as (H1 & H2 & _ & _).
  split; [exact H1|]. split; [exact H2|]. split; [reflexivity|].
  destruct (C7_define_and_assign 1 Q [(s "a", VInt 1)] (VInt 2)
              (advance (advance (advance Q))) eq_refl eq_refl) as [_ Hset].
  destruct (Hset eq_refl) as (H3 & H4 & _).
  eexists. split; [exact H3|exact H4].
Defined.

(** C8.  In the body of a struct literal, where a field name is expected:
    a current token that is not an identifier (and is neither the closing
    brace nor the end of input, which end the body) is skipped, the parser
    moving to the next token without an error and with less of the input
    left to parse; an identifier that is not
    followed by [=] raises a syntax error; and at the end of input the
    body ends and the closing brace that [_parse_struct] then requires is
    missing, which raises a syntax error, so that a struct literal is read
    successfully only when its closing brace is consumed. *)
Theorem C8_struct_body (f : nat) (P : Parser) (result : dict) :
  (current_type P <> NAME ->
   current_type P <> EOF -> current_type P <> STRUCT_END ->
     _parse_struct_loop (S f) P result
     = _parse_struct_loop f (advance P) result /\
     remaining (advance P) < remaining P) /\
  (current_type P = NAME -> current_type (advance P) <> ASSIGN ->
     _parse_struct_loop (S f) P result
     = Raise (SyntaxError
                (ExpectedAssign (tok_line (current_token (advance P)))
                                (tok_col (current_token (advance P)))
                                (current_type (advance P))))) /\
  (current_type P = EOF ->
     _parse_struct_loop (S f) P result = Ok (result, P) /\
     eat STRUCT_END P
     = Raise (SyntaxError
                (Expected (tok_line (current_token P))
                          (tok_col (current_token P)) STRUCT_END EOF))) /\
  (forall (P0 : Parser),
     current_type P0 = STRUCT_START ->
     _parse_struct_loop f (advance P0) [] = Ok (result, P) ->
     current_type P = EOF ->
     _parse_struct (S f) P0
     = Raise (SyntaxError
                (Expected (tok_line (current_token P))
                          (tok_col (current_token P)) STRUCT_END EOF))) /\
  (forall (v : Value) (P' : Parser),
     _parse_struct f P = Ok (v, P') ->
     exists P2 : Parser, current_type P2 = STRUCT_END /\ P' = advance P2).
Proof.
  split; [|split; [|split; [|split]]].
  - intros Hn He Hs. split; [|apply advance_remaining, He]. simpl.
    apply is_type_false in Hn, He, Hs. rewrite Hn, He, Hs. reflexivity.
  - intros Hn Ha. simpl. rewrite Hn.
    change (is_type NAME EOF) with false.
    change (is_type NAME STRUCT_END) with false.
    change (is_type NAME NAME) with true. cbn [negb andb].
    rewrite (eat_current NAME P Hn). cbn [bind].
    apply is_type_false in Ha. rewrite Ha. reflexivity.
  - intros He. split.
    + apply _parse_struct_loop_stop. auto.
    + rewrite eat_other by (rewrite He; discriminate).
      rewrite He. reflexivity.
  - intros P0 Hs Hloop He. simpl.
    rewrite (eat_current STRUCT_START P0 Hs). cbn [bind].
    rewrite Hloop. cbn [bind].
    rewrite eat_other by (rewrite He; discriminate).
    rewrite He. reflexivity.
  - intros v P' H. destruct f as [|f]; [discriminate|]. simpl in H.
    run_inv H.
    match goal with X : eat STRUCT_END _ = Ok _ |- _ =>
      apply eat_ok_inv in X; destruct X as [X1 X2] end.
    eauto.
Qed.

Lemma C8_struct_body_witness :
  let P := advance (Parser_init (Lexer_init (s "struct{ 5 a 1"))) in
  (_parse_struct_loop 2 P [] = _parse_struct_loop 1 (advance P) [] /\
   remaining (advance P) < remaining P) /\
  _parse_struct_loop 1 (advance P) []
  = Raise (SyntaxError (ExpectedAssign 1 13 NUMBER)) /\
  (let Q := advance (advance (advance P)) in
   _parse_struct_loop 1 Q [] = Ok ([], Q) /\
   eat STRUCT_END Q = Raise (SyntaxError (Expected 1 14 STRUCT_END EOF))) /\
  parse_text (s "p struct{a = 1")
  = Raise (SyntaxError (Expected 1 15 STRUCT_END EOF)).
Proof.
  intros P.
  destruct (C8_struct_body 1 P []) as (Hskip & _).
  destruct (C8_struct_body 0 (advance P) []) as (_ & Hassign & _).
  destruct (C8_struct_body 0 (advance (advance (advance P))) [])
    as (_ & _ & Heof & _).
  assert (H1 : current_type P = NUMBER) by (vm_compute; reflexivity).
  assert (H2 : current_type (advance P) = NAME) by (vm_compute; reflexivity).
  assert (H3 : current_type (advance (advance P)) = NUMBER)
    by (vm_compute; reflexivity).
  assert (H4 : current_type (advance (advance (advance P))) = EOF)
    by (vm_compute; reflexivity).
  split; [apply Hskip; rewrite H1; discriminate|].
  split.
  { rewrite (Hassign H2) by (rewrite H3; discriminate).
    vm_compute. reflexivity. }
  split.
  { split.
    - apply (Heof H4).
    - rewrite (proj2 (Heof H4)). vm_compute. reflexivity. }
  vm_compute. reflexivity.
Defined.

(** What [_parse_chr] does after a successful inner value that the
    closing parenthesis follows. *)
Lemma _parse_chr_run (f : nat) (P : Parser) (arg : Value) (P2 : Parser) :
  current_type P = CHR_START ->
  _parse_value f (advance P) = Ok (arg, P2) ->
  current_type P2 = RPAREN ->
  _parse_chr (S f) P
  = match as_int arg with
    | Some z => v <- py_chr z ;; Ok (v, advance P2)
    | None => Ok (VStr (codes (s "?")), advance P2)
    end.
Proof.
  intros Hc Hv Hr. simpl. rewrite (eat_current CHR_START P Hc). cbn [bind].
  rewrite Hv. cbn [bind]. rewrite (eat_current RPAREN P2 Hr). reflexivity.
Qed.

(** C9, amended.  For a [chr(] form whose inner value parses and is
    followed by the closing parenthesis: an inner value that is an integer
    [z] with [0 <= z <= 0x10FFFF] gives the one-character text of code
    point [z], and an inner value that is a text, a list or a struct gives
    the text ["?"]; no error is raised in either case. *)
Theorem C9_chr_conversion
    (f : nat) (P : Parser) (arg : Value) (P2 : Parser) :
  current_type P = CHR_START ->
  _parse_value f (advance P) = Ok (arg, P2) ->
  current_type P2 = RPAREN ->
  (forall z : Z,
     arg = VInt z -> (0 <= z <= 1114111)%Z ->
     _parse_chr (S f) P = Ok (VStr [Z.to_N z], advance P2)) /\
  ((exists x, arg = VStr x) \/ (exists l, arg = VList l) \/
   (exists d, arg = VDict d) ->
     _parse_chr (S f) P = Ok (VStr (codes (s "?")), advance P2)).
Proof.
  intros Hc Hv Hr. rewrite (_parse_chr_run f P arg P2 Hc Hv Hr). split.
  - intros z -> Hrange. simpl. unfold py_chr.
    destruct (Z.ltb_spec z (-2147483648)); [lia|].
    destruct (Z.ltb_spec 2147483647 z); [lia|].
    destruct (Z.ltb_spec z 0); [lia|].
    destruct (Z.ltb_spec 1114111 z); [lia|]. reflexivity.
  - intros [[x ->]|[[l ->]|[d ->]]]; reflexivity.
Qed.

Lemma C9_chr_conversion_witness :
  let P := Parser_init (Lexer_init (s "chr(65)")) in
  let Q := Parser_init (Lexer_init (s "chr('A')")) in
  _parse_chr 2 P = Ok (VStr [65%N], advance (advance (advance P))) /\
  _parse_chr 2 Q = Ok (VStr (codes (s "?")), advance (advance (advance Q))).
Proof.
  intros P Q. split.
  - destruct (C9_chr_conversion 1 P (VInt 65) (advance (advance P))
                eq_refl eq_refl eq_refl) as (H & _).
    exact (H 65%Z eq_refl ltac:(lia)).
  - destruct (C9_chr_conversion 1 Q (VStr (codes (s "A"))) (advance (advance Q))
                eq_refl eq_refl eq_refl) as (_ & H).
    apply H. left. eexists. reflexivity.
Defined.

(** C9 as stated fails: in [chr(1114112)] the inner value parses to an
    integer and the closing parenthesis follows, yet the form raises
    [ValueError]; the same happens for a negative integer. *)
Lemma C9_chr_out_of_range_raises :
  let P := Parser_init (Lexer_init (s "chr(1114112)")) in
  current_type P = CHR_START /\
  _parse_value 1 (advance P) = Ok (VInt 1114112, advance (advance P)) /\
  current_type (advance (advance P)) = RPAREN /\
  _parse_chr 2 P = Raise ValueError /\
  parse_text (s "c := chr(1114112)") = Raise ValueError /\
  parse_text (s "c := chr([- 0 1])") = Raise ValueError.
Proof. repeat split; vm_compute; reflexivity. Qed.

(** C10.  In a list literal the values before the closing parenthesis
    become the elements of the list, in their order, whether a comma
    follows a value or not: whatever the placement of commas, the result is
    the list of the values parsed. *)
Theorem C10_list_commas_optional
    (f : nat) (P : Parser) (vs : list Value) (P' : Parser) :
  current_type P = LIST_START ->
  Elements f (advance P) vs P' ->
  _parse_list (S (f + List.length vs + 1)) P = Ok (VList vs, advance P').
Proof.
  intros Hs He.
  assert (Hend : current_type P' = RPAREN).
  { clear Hs. induction He; auto. }
  simpl. rewrite (eat_current LIST_START P Hs). cbn [bind].
  rewrite (_parse_list_loop_elements _ _ _ _ He []). cbn [bind app].
  rewrite (eat_current RPAREN P' Hend). reflexivity.
Qed.

Lemma C10_list_commas_optional_witness :
  fmap_value (_parse_list 6 (Parser_init (Lexer_init (s "(list 1 2 3)"))))
  = Ok (VList [VInt 1; VInt 2; VInt 3]) /\
  fmap_value (_parse_list 6 (Parser_init (Lexer_init (s "(list 1,2,3)"))))
  = Ok (VList [VInt 1; VInt 2; VInt 3]) /\
  parse_text (s "a = (list 1 2 3) b = (list 1,2,3) c = (list 1, 2 3,)")
  = Ok [(s "a", VList [VInt 1; VInt 2; VInt 3]);
        (s "b", VList [VInt 1; VInt 2; VInt 3]);
        (s "c", VList [VInt 1; VInt 2; VInt 3])].
Proof.
  split; [|split].
  - eassert (He : Elements 1
                    (advance (Parser_init (Lexer_init (s "(list 1 2 3)"))))
                    [VInt 1; VInt 2; VInt 3] _).
    { eapply Elements_plain;
        [vm_compute; reflexivity | vm_compute; discriminate |].
      eapply Elements_plain;
        [vm_compute; reflexivity | vm_compute; discriminate |].
      eapply Elements_plain;
        [vm_compute; reflexivity | vm_compute; discriminate |].
      apply Elements_end. vm_compute. reflexivity. }
    exact (f_equal fmap_value
             (C10_list_commas_optional
                1 (Parser_init (Lexer_init (s "(list 1 2 3)"))) _ _ eq_refl He)).
  - eassert (He : Elements 1
                    (advance (Parser_init (Lexer_init (s "(list 1,2,3)"))))
                    [VInt 1; VInt 2; VInt 3] _).
    { eapply Elements_comma;
        [vm_compute; reflexivity | vm_compute; reflexivity |].
      eapply Elements_comma;
        [vm_compute; reflexivity | vm_compute; reflexivity |].
      eapply Elements_plain;
        [vm_compute; reflexivity | vm_compute; discriminate |].
      apply Elements_end. vm_compute. reflexivity. }
    exact (f_equal fmap_value
             (C10_list_commas_optional
                1 (Parser_init (Lexer_init (s "(list 1,2,3)"))) _ _ eq_refl He)).
  - vm_compute. reflexivity.
Defined.

(** * Further properties of the lexer and the parser *)

(** ** The cursor of the lexer *)

Lemma next_token_at_end (L : Lexer) :
  rest L = [] -> next_token L = (mkToken EOF [] (line L) (col L), L).
Proof. intros E. unfold next_token. rewrite E. simpl. rewrite E. reflexivity. Qed.

(** X1.  A call of [next_token] keeps the text and never moves the cursor
    back; a token other than [EOF] moves it forward, from a position inside
    the text; and once [EOF] is returned the cursor is at or past the end
    of the text and every further call returns [EOF] again, at the same
    line and column, without changing the lexer. *)
Theorem X1_next_token_forward (L : Lexer) :
  let t := fst (next_token L) in
  let L' := snd (next_token L) in
  text L' = text L /\
  pos L <= pos L' /\
  (tok_type t <> EOF -> pos L < pos L' /\ pos L < len (text L)) /\
  (tok_type t = EOF ->
     len (text L) <= pos L' /\
     next_token L' = (mkToken EOF [] (line L') (col L'), L')).
Proof.
  destruct (next_token_lexed L) as [[[Et Hp] H] _].
  cbv zeta. split; [exact Et|]. split; [exact Hp|]. split.
  - intros Hne. destruct H as [[Ht _]|(_ & Hlt & Hlen)]; [contradiction|].
    split; assumption.
  - intros Heof. destruct H as [[_ Hr]|(Hne & _)]; [|contradiction].
    split; [|apply next_token_at_end, Hr].
    pose proof (rest_length (snd (next_token L))) as E.
    rewrite Hr, Et in E. simpl in E. lia.
Qed.

Lemma tokens_from_bound (fuel : nat) (L : Lexer) :
  len (rest L) < fuel ->
  exists (ts : list Token) (t : Token),
    tokens_from fuel L = ts ++ [t] /\ tok_type t = EOF /\
    Forall (fun x => tok_type x <> EOF) ts /\
    List.length ts <= len (rest L).
Proof.
  revert L. induction fuel as [|fuel IH]; intros L Hfuel; [lia|].
  simpl. destruct (next_token_lexed L) as [[[Et Hp] H] _].
  destruct (next_token L) as [t L']. simpl in Et, Hp, H.
  destruct (is_type (tok_type t) EOF) eqn:E.
  - apply is_type_true in E. exists [], t. simpl. repeat split; auto. lia.
  - apply is_type_false in E.
    destruct H as [[Ht _]|(_ & Hlt & Hlen)]; [contradiction|].
    destruct (IH L') as (ts & t' & Hts & Ht' & Hall & Hn).
    { rewrite rest_length in *. rewrite Et. lia. }
    exists (t :: ts), t'. rewrite Hts. simpl. repeat split; auto.
    rewrite rest_length in *. rewrite Et in Hn. lia.
Qed.

(** X2.  Calling [next_token] again and again on any text reaches [EOF]:
    the tokens before it are fewer than or as many as the characters of
    the text, none of them is [EOF], and the last one is. *)
Theorem X2_tokenize_reaches_EOF (t : str) :
  exists (ts : list Token) (e : Token),
    tokenize t = ts ++ [e] /\ tok_type e = EOF /\
    Forall (fun x => tok_type x <> EOF) ts /\
    List.length ts <= len t.
Proof.
  destruct (tokens_from_bound (S (len t)) (Lexer_init t))
    as (ts & e & H1 & H2 & H3 & H4).
  { rewrite rest_length. simpl. lia. }
  exists ts, e. repeat split; auto.
Qed.

(** ** Progress and termination of the parser *)

(** X3.  A value that is parsed successfully uses up input: after
    [_parse_value] less is left to parse than before, and the same holds
    for a statement of [parse] that starts at a token other than [EOF].
    So no loop of the parser can go round without moving on. *)
Theorem X3_parsing_uses_up_input (f : nat) (P : Parser) :
  (forall (v : Value) (P' : Parser),
     _parse_value f P = Ok (v, P') -> remaining P' < remaining P) /\
  (forall (result result' : dict) (P' : Parser),
     current_type P <> EOF ->
     parse_statement f P result = Ok (result', P') ->
     remaining P' < remaining P).
Proof.
  set (g := Nat.max f (3 * remaining P + 1)).
  split.
  - intros v P' H.
    apply (_parse_value_fuel f g) in H; [|unfold g; lia].
    destruct (fuel_enough g) as (Hv & _).
    destruct (Hv P ltac:(unfold g; lia)) as [_ Hlt]. eapply Hlt, H.
  - intros result result' P' Hcur H.
    assert (Hg : parse_statement g P result = Ok (result', P')).
    { rewrite <- H. apply parse_statement_fuel; [unfold g; lia|].
      rewrite H. discriminate. }
    destruct (parse_statement_within g P result Hcur ltac:(unfold g; lia))
      as [_ Hlt].
    eapply Hlt, Hg.
Qed.

Lemma X3_parsing_uses_up_input_witness :
  let P := Parser_init (Lexer_init (s "(list 1 2) x = 3")) in
  let P' := advance (advance (advance (advance P))) in
  _parse_value 6 P = Ok (VList [VInt 1; VInt 2], P') /\
  remaining P' < remaining P.
Proof.
  intros P P'.
  assert (H : _parse_value 6 P = Ok (VList [VInt 1; VInt 2], P'))
    by (vm_compute; reflexivity).
  split; [exact H|].
  destruct (X3_parsing_uses_up_input 6 P) as [Hv _].
  exact (Hv _ _ H).
Defined.

(** X4.  [parse] ends on every parser state: with the fuel [fuel_for] it
    returns a document or raises an exception, and any larger amount of
    fuel gives the same result. *)
Theorem X4_parse_terminates (P : Parser) (f : nat) :
  fuel_for P <= f ->
  parse_loop f P [] = parse P /\
  ((exists doc : dict, parse P = Ok doc) \/
   (exists e : Exception, parse P = Raise e)).
Proof.
  intros Hle. split; [apply parse_loop_fuel, Hle|apply parse_total].
Qed.

Lemma X4_parse_terminates_witness :
  let P := Parser_init (Lexer_init (s "a = (list 1, struct{b = 2})")) in
  fuel_for P = 83 /\
  parse_loop 1000 P []
  = Ok [(s "a", VList [VInt 1; VDict [(s "b", VInt 2)]])].
Proof.
  intros P. split; [vm_compute; reflexivity|].
  destruct (X4_parse_terminates P 1000) as [H _].
  - vm_compute. repeat constructor.
  - rewrite H. vm_compute. reflexivity.
Defined.

(** ** Comments and white space *)

Lemma next_token_round (L L1 : Lexer) :
  advances L L1 -> pos L < len (text L) ->
  match next_token_loop (len (rest L)) L1 with
  | Some r => r
  | None => (mkToken EOF [] (line L) (col L), L)
  end = next_token L1.
Proof.
  intros [Et Hp] Hlt. rewrite next_token_loop_fuel; [reflexivity|].
  rewrite !rest_length, Et. lia.
Qed.

Lemma next_token_skip_line_comment (L : Lexer) (r : str) :
  rest L = "#" :: r -> next_token L = next_token (_skip_line_comment L).
Proof.
  intros E. unfold next_token at 1. cbn [next_token_loop]. rewrite E.
  change (char_eqb "#" "#") with true. cbv iota. rewrite <- E.
  apply next_token_round;
    [eapply _skip_line_comment_advances|eapply rest_cons_lt]; eauto.
Qed.

Lemma next_token_skip_whitespace (L : Lexer) :
  next_token (_skip_whitespace L) = next_token L.
Proof.
  destruct (rest L) as [|c r] eqn:E.
  - unfold _skip_whitespace. rewrite E. reflexivity.
  - destruct (isspace c) eqn:Hc.
    + symmetry. unfold next_token at 1. cbn [next_token_loop]. rewrite E.
      destruct (char_eqb c "#") eqn:Hh.
      { apply char_eqb_eq in Hh. subst c. discriminate Hc. }
      rewrite Hc. rewrite <- E.
      apply next_token_round;
        [eapply _skip_whitespace_advances|eapply rest_cons_lt]; eauto.
    + unfold _skip_whitespace. rewrite E. simpl. rewrite Hc. reflexivity.
Qed.

Lemma rest_two_slice (L : Lexer) (a b : ascii) (r : str) :
  rest L = a :: b :: r ->
  (pos L + 1 <? len (text L)) = true /\
  slice (text L) (pos L) (pos L + 2) = [a; b].
Proof.
  intros E. split.
  - apply Nat.ltb_lt. pose proof (rest_length L) as H. rewrite E in H.
    simpl in H. lia.
  - unfold slice. replace (pos L + 2 - pos L) with 2 by lia.
    fold (rest L). rewrite E. reflexivity.
Qed.

Lemma next_token_skip_multiline_comment (L : Lexer) (r : str) :
  rest L = "{" :: "-" :: r ->
  next_token L = next_token (_skip_multiline_comment L).
Proof.
  intros E. unfold next_token at 1. cbn [next_token_loop]. rewrite E.
  destruct (rest_two_slice L _ _ _ E) as [H1 H2]. rewrite H1, H2.
  change (char_eqb "{" "#") with false.
  change (isspace "{") with false.
  change (true && str_eqb ["{"; "-"] (s "{-")) with true. cbv iota.
  rewrite <- E.
  apply next_token_round;
    [apply _skip_multiline_comment_advances|eapply rest_cons_lt; eauto].
Qed.

Lemma string_scan_no_quote
    (r : str) (quote : ascii) (start sl sc : nat) (L : Lexer) :
  ~ In quote r -> fst (string_scan r quote start sl sc L) = None.
Proof.
  revert L. induction r as [|c r IH]; intros L Hin; simpl; [reflexivity|].
  destruct (char_eqb c quote) eqn:E.
  - apply char_eqb_eq in E. subst c. exfalso. apply Hin. left. reflexivity.
  - simpl. apply IH. intros H. apply Hin. right. exact H.
Qed.

(** X5.  At a quote character that does not occur again in the rest of
    the text, the scan for the end of the string runs to the end of the
    text and is not undone: [next_token] returns [EOF] and nothing is left
    to read, whatever follows the quote. *)
Theorem X5_unclosed_quote_ends_lexing (L : Lexer) (quote : ascii) (r : str) :
  rest L = quote :: r ->
  quote = squote \/ quote = dquote ->
  ~ In quote r ->
  tok_type (fst (next_token L)) = EOF /\ rest (snd (next_token L)) = [].
Proof.
  intros Hrest Hq Hin.
  apply (unterminated_string_gives_EOF L quote r Hrest Hq).
  unfold _parse_string. rewrite (rest_char_at _ _ _ Hrest).
  destruct (negb _); [reflexivity|].
  apply string_scan_no_quote.
  match goal with |- ~ In quote ?x => replace x with r end; [exact Hin|].
  symmetry. apply (skipn_cons_S _ _ _ _ Hrest).
Qed.

Lemma X5_unclosed_quote_ends_lexing_witness :
  let L := mkLexer (s "a = 'abc b = 1") 4 1 5 in
  tok_type (fst (next_token L)) = EOF /\ rest (snd (next_token L)) = [].
Proof.
  intros L.
  apply (X5_unclosed_quote_ends_lexing L squote (s "abc b = 1")).
  - reflexivity.
  - left. reflexivity.
  - simpl. intros H.
    repeat (destruct H as [H|H]; [discriminate H|]). exact H.
Defined.

(** X6.  A block comment that is not closed and has at least one
    character after its opening marker is skipped up to, but not
    including, the last character of the text: that character is what
    [next_token] lexes next. *)
Theorem X6_unclosed_comment_keeps_last_char (L : Lexer) (r : str) :
  rest L = "{" :: "-" :: r ->
  r <> [] ->
  has_close r = false ->
  rest (_skip_multiline_comment L) = [last r zero] /\
  next_token L = next_token (_skip_multiline_comment L).
Proof.
  intros Hrest Hne Hclose. split.
  - apply unterminated_comment_leaves_last; assumption.
  - eapply next_token_skip_multiline_comment; eauto.
Qed.

Lemma X6_unclosed_comment_keeps_last_char_witness :
  let L := Lexer_init (s "{- note 7") in
  rest (_skip_multiline_comment L) = s "7" /\
  shape (fst (next_token L)) = (NUMBER, s "7").
Proof.
  intros L.
  destruct (X6_unclosed_comment_keeps_last_char L (s " note 7"))
    as [H1 H2]; [reflexivity|discriminate|reflexivity|].
  split; [exact H1|]. rewrite H2. vm_compute. reflexivity.
Defined.

Lemma skip_multiline_comment_loop_closed (body tail : str) (L : Lexer) :
  rest L = body ++ "-" :: "}" :: tail ->
  has_close (body ++ ["-"]) = false ->
  rest (skip_multiline_comment_loop (body ++ "-" :: "}" :: tail) L) = tail /\
  pos (skip_multiline_comment_loop (body ++ "-" :: "}" :: tail) L)
  = pos L + len body + 2 /\
  line (skip_multiline_comment_loop (body ++ "-" :: "}" :: tail) L)
  = line L + newlines body.
Proof.
  revert L. induction body as [|c b IH]; intros L Hrest Hclose.
  - simpl. unfold rest, newlines. simpl. repeat split; try lia.
    replace (pos L + 2) with (S (S (pos L))) by lia.
    eapply skipn_cons_S, skipn_cons_S, Hrest.
  - assert (Hstep : skip_multiline_comment_loop
                      ((c :: b) ++ "-" :: "}" :: tail) L
                    = skip_multiline_comment_loop (b ++ "-" :: "}" :: tail)
                        (step_char c L) /\
                    has_close (b ++ ["-"]) = false).
    { destruct b as [|d b'].
      - simpl. split; [|reflexivity].
        rewrite andb_false_r. reflexivity.
      - simpl in Hclose. apply orb_false_iff in Hclose.
        destruct Hclose as [Hpair Hclose].
        split; [|exact Hclose].
        change ((c :: d :: b') ++ "-" :: "}" :: tail)
          with (c :: d :: (b' ++ "-" :: "}" :: tail)).
        cbn [skip_multiline_comment_loop]. rewrite Hpair. reflexivity. }
    destruct Hstep as [Hstep Hclose']. rewrite Hstep.
    destruct (IH (step_char c L)) as (H1 & H2 & H3);
      [eapply rest_step_char; exact Hrest|exact Hclose'|].
    rewrite H2, H3. split; [exact H1|].
    unfold step_char, newlines. simpl.
    destruct (char_eqb c newline); simpl; split; lia.
Qed.

(** X7.  A block comment with its closing marker is skipped as a whole:
    the lexer goes on right after the marker, with the line counter raised
    by the number of line breaks in the comment, and the next token is the
    one that follows the comment. *)
Theorem X7_closed_comment_is_skipped (L : Lexer) (body tail : str) :
  rest L = "{" :: "-" :: body ++ "-" :: "}" :: tail ->
  has_close (body ++ ["-"]) = false ->
  rest (_skip_multiline_comment L) = tail /\
  pos (_skip_multiline_comment L) = pos L + len body + 4 /\
  line (_skip_multiline_comment L) = line L + newlines body /\
  next_token L = next_token (_skip_multiline_comment L).
Proof.
  intros Hrest Hclose.
  assert (Hr : rest (mkLexer (text L) (pos L + 2) (line L) (col L + 2))
               = body ++ "-" :: "}" :: tail).
  { unfold rest. simpl. replace (pos L + 2) with (S (S (pos L))) by lia.
    eapply skipn_cons_S, skipn_cons_S, Hrest. }
  unfold _skip_multiline_comment. rewrite Hr.
  destruct (skip_multiline_comment_loop_closed body tail _ Hr Hclose)
    as (H1 & H2 & H3).
  simpl in H2, H3. repeat split; auto; try lia.
  rewrite (next_token_skip_multiline_comment L _ Hrest).
  unfold _skip_multiline_comment. rewrite Hr. reflexivity.
Qed.

Lemma X7_closed_comment_is_skipped_witness :
  let L := Lexer_init (s "{- a
 b -} x = 1") in
  rest (_skip_multiline_comment L) = s " x = 1" /\
  line (_skip_multiline_comment L) = 2 /\
  fst (next_token L) = mkToken NAME (s "x") 2 7.
Proof.
  intros L.
  destruct (X7_closed_comment_is_skipped L (s " a
 b ") (s " x = 1")) as (H1 & _ & H3 & H4);
    [reflexivity|reflexivity|].
  split; [exact H1|]. split; [exact H3|].
  rewrite H4. vm_compute. reflexivity.
Defined.

Lemma skipn_app_length (a b : str) : skipn (List.length a) (a ++ b) = b.
Proof. induction a as [|x a IH]; simpl; auto. Qed.

Lemma skip_line_comment_loop_to_newline (b tail : str) (L : Lexer) :
  ~ In newline b ->
  skip_line_comment_loop (b ++ newline :: tail) L
  = mkLexer (text L) (pos L + len b) (line L) (col L + len b).
Proof.
  revert L. induction b as [|c b IH]; intros L Hin.
  - simpl. rewrite !Nat.add_0_r. destruct L; reflexivity.
  - simpl. destruct (char_eqb c newline) eqn:E.
    + apply char_eqb_eq in E. subst c. exfalso. apply Hin. left. reflexivity.
    + rewrite IH by (intros H; apply Hin; right; exact H). simpl.
      f_equal; lia.
Qed.

(** X8.  After a line comment that ends with a line break the line counter
    is 2 higher than at the [#], although one line break was read: the
    comment counts the line break without reading it, and the white space
    that follows counts it again.  The next token is the one the lexer
    finds from the character after the line break, at line [line L + 2],
    column 1. *)
Theorem X8_line_comment_counts_line_twice (L : Lexer) (b tail : str) :
  rest L = "#" :: b ++ newline :: tail ->
  ~ In newline b ->
  let L1 := _skip_line_comment L in
  let L2 := mkLexer (text L) (pos L + len b + 2) (line L + 2) 1 in
  rest L1 = newline :: tail /\ line L1 = line L + 1 /\
  rest L2 = tail /\ next_token L = next_token L2.
Proof.
  intros Hrest Hin L1 L2.
  assert (HL1 : L1 = mkLexer (text L) (pos L + len b + 1) (line L + 1) 1).
  { unfold L1, _skip_line_comment. rewrite Hrest.
    change ("#" :: b ++ newline :: tail)
      with (("#" :: b) ++ newline :: tail).
    rewrite skip_line_comment_loop_to_newline.
    2:{ intros [H|H]; [discriminate H|contradiction]. }
    cbn [pos text line len List.length].
    assert (Hlt : pos L + S (List.length b) < len (text L)).
    { pose proof (rest_length L) as H. rewrite Hrest in H.
      unfold len in *. simpl in H. rewrite length_app in H. simpl in H. lia. }
    apply Nat.ltb_lt in Hlt. unfold len in *. rewrite Hlt.
    f_equal; lia. }
  assert (Hr1 : rest L1 = newline :: tail).
  { rewrite HL1. unfold rest in *. cbn [pos text].
    replace (pos L + len b + 1) with (S (len b) + pos L) by lia.
    rewrite <- skipn_skipn, Hrest.
    change ("#" :: b ++ newline :: tail) with (("#" :: b) ++ newline :: tail).
    apply (skipn_app_length ("#" :: b)). }
  assert (Hr2 : rest L2 = tail).
  { unfold L2, rest. cbn [pos text].
    replace (pos L + len b + 2) with (S (pos L + len b + 1)) by lia.
    apply (skipn_cons_S _ _ newline). rewrite HL1 in Hr1. exact Hr1. }
  split; [exact Hr1|]. split; [rewrite HL1; reflexivity|].
  split; [exact Hr2|].
  rewrite (next_token_skip_line_comment L _ Hrest). fold L1.
  rewrite <- (next_token_skip_whitespace L1).
  rewrite <- (next_token_skip_whitespace L2).
  f_equal. unfold _skip_whitespace. rewrite Hr1, Hr2.
  cbn [skip_whitespace_loop]. change (isspace newline) with true. cbv iota.
  f_equal. rewrite HL1. unfold step_char, L2.
  change (char_eqb newline newline) with true. cbn [pos text line].
  f_equal; lia.
Qed.

Lemma X8_line_comment_counts_line_twice_witness :
  let L := Lexer_init (s "# c
x = 1") in
  line (_skip_line_comment L) = 2 /\
  fst (next_token L) = mkToken NAME (s "x") 3 1.
Proof.
  intros L.
  destruct (X8_line_comment_counts_line_twice L (s " c") (s "x = 1"))
    as (_ & H2 & _ & H4).
  - reflexivity.
  - simpl. intros H.
    repeat (destruct H as [H|H]; [discriminate H|]). exact H.
  - split; [exact H2|]. rewrite H4. vm_compute. reflexivity.
Defined.

(** ** Bracket expressions, from the lexer to the evaluator *)

Lemma bracket_scan_le (r : str) (e : nat) (count : Z) :
  fst (bracket_scan r e count) <= e + len r.
Proof.
  revert e count. induction r as [|c r IH]; intros e count; simpl; [lia|].
  unfold len in *.
  destruct (char_eqb c "[").
  - specialize (IH (S e) (count + 1)%Z). lia.
  - destruct (char_eqb c "]").
    + destruct (count - 1 =? 0)%Z; simpl; [lia|].
      specialize (IH (S e) (count - 1)%Z). lia.
    + specialize (IH (S e) count). lia.
Qed.

(** The text between the brackets, cut out of the token or out of the text
    of the lexer. *)
Lemma slice_inner (t : str) (a e : nat) :
  a <= e -> e < len t ->
  slice_1_m1 (slice t a (e + 1)) = slice t (a + 1) e.
Proof.
  intros Hae Hlt. unfold slice_1_m1, slice.
  assert (Hlen : len (skipn a t) = len t - a) by apply length_skipn.
  destruct (skipn a t) as [|c u] eqn:Eu; [simpl in Hlen; lia|].
  replace (a + 1) with (S a) by lia.
  rewrite (skipn_cons_S _ _ _ _ Eu).
  replace (e + 1 - a) with (S (e - a)) by lia. simpl tl.
  destruct (e - a) as [|k] eqn:Ek.
  - replace (e - S a) with 0 by lia. reflexivity.
  - replace (e - S a) with k by lia.
    apply removelast_firstn. unfold len in *. simpl in Hlen. lia.
Qed.

Lemma Lexer_parse_expression_content (L : Lexer) (t : Token) (L' : Lexer) :
  Lexer_parse_expression L = Some (t, L') ->
  tok_type t = LBRACK /\
  exists (op field1 : str) (more : list str),
    split (strip (slice_1_m1 (tok_value t))) = op :: field1 :: more /\
    str_in op operators = true.
Proof.
  unfold Lexer_parse_expression.
  pose proof (bracket_scan_ge (rest L) (pos L) 0%Z) as Hge.
  pose proof (bracket_scan_le (rest L) (pos L) 0%Z) as Hle.
  destruct (bracket_scan (rest L) (pos L) 0%Z) as [e count].
  simpl in Hge, Hle.
  destruct (e =? len (text L)) eqn:Ee; [discriminate|]. cbn [orb].
  destruct (negb (count =? 0)%Z); [discriminate|].
  destruct (split (strip (slice (text L) (pos L + 1) e)))
    as [|op [|field1 more]] eqn:Ec;
    cbn [List.length Nat.leb andb hd]; try discriminate.
  destruct (str_in op operators) eqn:Eop; [|discriminate].
  intros H. injection H as <- _. split; [reflexivity|].
  exists op, field1, more. split; [|exact Eop]. cbn [tok_value].
  apply Nat.eqb_neq in Ee.
  destruct (Nat.le_gt_cases (len (text L)) (pos L)) as [Hout|Hin].
  - exfalso. unfold slice in Ec.
    rewrite skipn_all2 in Ec by (unfold len in *; lia).
    rewrite firstn_nil in Ec. discriminate Ec.
  - rewrite slice_inner; [exact Ec|lia|].
    rewrite rest_length in Hle. lia.
Qed.

Lemma resolve_argument_raises (consts : dict) (field : str) (e : Exception) :
  resolve_argument consts field = Raise e -> e = ValueError.
Proof.
  unfold resolve_argument, int_of. destruct (dict_get _ _); [discriminate|].
  destruct (startswith _ _); destruct (py_int _ _); try discriminate;
    intros H; injection H as <-; reflexivity.
Qed.

Lemma skip_line_comment_moves_text (L : Lexer) :
  text (_skip_line_comment L) = text L /\ pos L <= pos (_skip_line_comment L).
Proof.
  unfold _skip_line_comment.
  destruct (skip_line_comment_loop_moves (rest L) L) as [Et Hp].
  destruct (_ <? _); simpl; auto.
Qed.

(** Where a token of [next_token] comes from: the end of the text, or one
    of the four sub-lexers at a state [L0] over the same text. *)
Lemma next_token_loop_source
    (fuel : nat) (L : Lexer) (t : Token) (L' : Lexer) :
  next_token_loop fuel L = Some (t, L') ->
  (t = mkToken EOF [] (line L') (col L') /\ rest L' = []) \/
  exists L0 : Lexer,
    text L0 = text L /\
    (Lexer_parse_expression L0 = Some (t, L') \/
     _match_keyword L0 = Some (t, L') \/
     _parse_number L0 = Some (t, L') \/
     _parse_string L0 = (Some t, L')).
Proof.
  revert L. induction fuel as [|fuel IH]; intros L H; [discriminate|].
  cbn [next_token_loop] in H.
  assert (Hnext : forall L1, text L1 = text L ->
            next_token_loop fuel L1 = Some (t, L') ->
            (t = mkToken EOF [] (line L') (col L') /\ rest L' = []) \/
            exists L0 : Lexer,
              text L0 = text L /\
              (Lexer_parse_expression L0 = Some (t, L') \/
               _match_keyword L0 = Some (t, L') \/
               _parse_number L0 = Some (t, L') \/
               _parse_string L0 = (Some t, L'))).
  { intros L1 Et H1. destruct (IH L1 H1) as [Heof|(L0 & E0 & Hsrc)];
      [left; exact Heof|right]. exists L0. split; [congruence|exact Hsrc]. }
  destruct (rest L) as [|char r] eqn:Erest.
  { injection H as <- <-. left. split; [reflexivity|exact Erest]. }
  destruct (char_eqb char "#").
  { apply (Hnext _ (proj1 (skip_line_comment_moves_text L)) H). }
  destruct (isspace char).
  { apply (Hnext _ (proj1 (skip_whitespace_loop_moves _ L)) H). }
  destruct (_ && _).
  { apply (Hnext _ (proj1 (_skip_multiline_comment_advances L)) H). }
  destruct (if char_eqb (char_at L (pos L)) "[" then Lexer_parse_expression L
            else None) as [[t1 L1]|] eqn:Eexpr.
  { injection H as <- <-. right. exists L. split; [reflexivity|]. left.
    destruct (char_eqb _ "["); [exact Eexpr|discriminate]. }
  destruct (_match_keyword L) as [[t1 L1]|] eqn:Ekey.
  { injection H as <- <-. right. exists L. auto. }
  destruct (_parse_number L) as [[t1 L1]|] eqn:Enum.
  { injection H as <- <-. right. exists L. auto. }
  pose proof (_parse_string_moves L) as [[Et _] _].
  destruct (_parse_string L) as [[t1|] L1] eqn:Estr.
  - injection H as <- <-. right. exists L. auto.
  - simpl in Et. apply (fun E => Hnext _ E H). exact Et.
Qed.

Lemma next_token_source (L : Lexer) (t : Token) (L' : Lexer) :
  next_token L = (t, L') ->
  (t = mkToken EOF [] (line L') (col L') /\ rest L' = []) \/
  exists L0 : Lexer,
    text L0 = text L /\
    (Lexer_parse_expression L0 = Some (t, L') \/
     _match_keyword L0 = Some (t, L') \/
     _parse_number L0 = Some (t, L') \/
     _parse_string L0 = (Some t, L')).
Proof.
  intros H. destruct (next_token_lexed L) as [_ Hrun]. rewrite H in Hrun.
  eapply next_token_loop_source, Hrun.
Qed.

Lemma _match_keyword_type (L : Lexer) (t : Token) (L' : Lexer) :
  _match_keyword L = Some (t, L') ->
  (tok_type t = NAME /\ find (fun p => startswith (fst p) (rest L)) patterns = None /\
   match_name (rest L) = Some (tok_value t)) \/
  (In (tok_value t, tok_type t) patterns /\
   startswith (tok_value t) (rest L) = true).
Proof.
  unfold _match_keyword.
  destruct (find _ patterns) as [[pattern ttype]|] eqn:Hfind.
  - intros H. injection H as <- _. right. apply find_some in Hfind. exact Hfind.
  - destruct (match_name (rest L)) as [value|]; [|discriminate].
    intros H. injection H as <- _. left. auto.
Qed.

Lemma _parse_number_type (L : Lexer) (t : Token) (L' : Lexer) :
  _parse_number L = Some (t, L') ->
  match_number (rest L) = Some (tok_value t) /\
  tok_type t = (if startswith (s "0x") (lower (tok_value t)) then HEX else NUMBER).
Proof.
  unfold _parse_number. destruct (match_number (rest L)); [|discriminate].
  intros H. injection H as <- _. auto.
Qed.

Lemma pattern_types (v : str) (tt : TokenType) :
  In (v, tt) patterns ->
  In tt [STRUCT_START; LIST_START; CHR_START; DEFINE; SEMICOLON; ASSIGN;
         COMMA; STRUCT_END; RPAREN; BOOL_TRUE; BOOL_FALSE].
Proof.
  intros H. simpl in H.
  repeat (destruct H as [H|H]; [injection H as _ <-; simpl; tauto|]).
  contradiction.
Qed.

Ltac by_type :=
  repeat match goal with |- _ /\ _ => split end;
  try (simpl; tauto);
  let E := fresh "E" in
  intros E; try assumption;
  repeat match type of E with _ \/ _ => destruct E as [E|E] end;
  try discriminate E; assumption.

(** The type of a token of [next_token] tells which sub-lexer made it. *)
Lemma next_token_by_type (L : Lexer) (t : Token) (L' : Lexer) :
  next_token L = (t, L') ->
  exists L0 : Lexer,
    text L0 = text L /\
    (tok_type t = LBRACK -> Lexer_parse_expression L0 = Some (t, L')) /\
    (tok_type t = NAME \/ tok_type t = BOOL_TRUE \/ tok_type t = BOOL_FALSE ->
       _match_keyword L0 = Some (t, L')) /\
    (tok_type t = NUMBER \/ tok_type t = HEX ->
       _parse_number L0 = Some (t, L')) /\
    (tok_type t = STRING -> _parse_string L0 = (Some t, L')) /\
    In (tok_type t)
       [EOF; LBRACK; NAME; NUMBER; HEX; STRING; STRUCT_START; LIST_START;
        CHR_START; DEFINE; SEMICOLON; ASSIGN; COMMA; STRUCT_END; RPAREN;
        BOOL_TRUE; BOOL_FALSE].
Proof.
  intros H.
  destruct (next_token_source L t L' H) as [[-> _]|(L0 & Et & Hsrc)].
  { exists L. split; [reflexivity|]. cbn [tok_type]. by_type. }
  exists L0. split; [exact Et|].
  destruct Hsrc as [Hx|[Hk|[Hn|Hs]]].
  - destruct (Lexer_parse_expression_advances _ _ _ Hx) as [_ Ht].
    rewrite Ht. by_type.
  - destruct (_match_keyword_type _ _ _ Hk) as [(Ht & _)|(Hin & _)].
    + rewrite Ht. by_type.
    + apply pattern_types in Hin. simpl in Hin.
      repeat (destruct Hin as [Hin|Hin]; [rewrite <- Hin; by_type|]).
      contradiction.
  - destruct (_parse_number_type _ _ _ Hn) as [_ Ht]. rewrite Ht.
    destruct (startswith _ _); by_type.
  - destruct (_parse_string_moves L0) as [_ Ht]. rewrite Hs in Ht.
    rewrite (Ht t eq_refl). by_type.
Qed.

(** X9.  A bracket token that [next_token] returns always has an operator
    and at least one operand, so the evaluator never rejects it as an
    incorrect expression or for an unknown operation: evaluating it gives
    a value, or fails with the [ValueError] of [int], or fails with the
    syntax error for arguments that are not numbers. *)
Theorem X9_bracket_token_is_well_formed
    (L : Lexer) (t : Token) (L' : Lexer) (P : Parser) :
  next_token L = (t, L') ->
  tok_type t = LBRACK ->
  current_token P = t ->
  (exists (op field1 : str) (more : list str),
     split (strip (slice_1_m1 (tok_value t))) = op :: field1 :: more /\
     str_in op operators = true) /\
  ((exists v : Value, Parser_parse_expression P = Ok (v, advance P)) \/
   Parser_parse_expression P = Raise ValueError \/
   Parser_parse_expression P
   = Raise (SyntaxError (ArgumentsMustBeNumbers (tok_value t)))).
Proof.
  intros Hnext Ht Hcur.
  destruct (next_token_by_type L t L' Hnext) as (L0 & _ & Hx & _).
  destruct (Lexer_parse_expression_content L0 t L' (Hx Ht))
    as (_ & op & field1 & more & Hc & Hop).
  split; [eauto|].
  unfold Parser_parse_expression.
  rewrite eat_current by (unfold current_type; rewrite Hcur; exact Ht).
  cbn [bind]. rewrite Hcur, Hc. cbv beta iota. rewrite Hop. cbn [negb].
  destruct (resolve_argument (constants (advance P)) field1) as [v1|e1|] eqn:E1.
  - cbn [bind]. destruct more as [|field2 more]; [left; eauto|].
    destruct (resolve_argument (constants (advance P)) field2)
      as [v2|e2|] eqn:E2.
    + cbn [bind]. destruct (as_int v1), (as_int v2); eauto.
    + apply resolve_argument_raises in E2. subst e2. right. left. reflexivity.
    + exfalso. eapply resolve_argument_finishes, E2.
  - apply resolve_argument_raises in E1. subst e1. right. left. reflexivity.
  - exfalso. eapply resolve_argument_finishes, E1.
Qed.

Lemma X9_bracket_token_is_well_formed_witness :
  let L := mkLexer (s "v = [* 6 k]") 3 1 4 in
  let t := mkToken LBRACK (s "[* 6 k]") 1 5 in
  let L' := mkLexer (s "v = [* 6 k]") 11 1 12 in
  let P := mkParser L' t [] in
  next_token L = (t, L') /\
  ((exists v : Value, Parser_parse_expression P = Ok (v, advance P)) \/
   Parser_parse_expression P = Raise ValueError \/
   Parser_parse_expression P
   = Raise (SyntaxError (ArgumentsMustBeNumbers (s "[* 6 k]")))) /\
  Parser_parse_expression P = Raise ValueError.
Proof.
  intros L t L' P.
  assert (H : next_token L = (t, L')) by (vm_compute; reflexivity).
  split; [exact H|]. split; [|vm_compute; reflexivity].
  apply (X9_bracket_token_is_well_formed L t L' P H eq_refl eq_refl).
Defined.

(** X10.  The value of a bracket expression is an integer, except in the
    single-operand form with an argument that names a constant: there it
    is whatever the constant table holds for the argument.  Evaluating
    passes one token and leaves the constant table as it is. *)
Theorem X10_bracket_value_kinds (P : Parser) (v : Value) (P' : Parser) :
  Parser_parse_expression P = Ok (v, P') ->
  P' = advance P /\
  constants P' = constants P /\
  ((exists z : Z, v = VInt z) \/
   (exists op field1 : str,
      split (strip (slice_1_m1 (tok_value (current_token P)))) = [op; field1] /\
      dict_get (strip field1) (constants P) = Some v)).
Proof.
  intros H. split; [|split].
  - unfold Parser_parse_expression in H. bind_inv H.
    apply eat_ok_inv in Ha. destruct Ha as [_ ->].
    destruct (split _) as [|op [|field1 more]]; try discriminate.
    destruct (negb _); [discriminate|]. bind_inv H.
    destruct more; [injection H as _ <-; reflexivity|].
    bind_inv H. destruct (as_int _); [|discriminate].
    destruct (as_int _); [|discriminate].
    injection H as _ <-. reflexivity.
  - eapply Parser_parse_expression_constants, H.
  - eapply Parser_parse_expression_result, H.
Qed.

Lemma X10_bracket_value_kinds_witness :
  let P := mkParser (Lexer_init (s ";")) (mkToken LBRACK (s "[- 0x10 k]") 1 1)
                    [(s "k", VInt 6)] in
  Parser_parse_expression P = Ok (VInt 10, advance P) /\
  constants (advance P) = [(s "k", VInt 6)].
Proof.
  intros P.
  assert (H : Parser_parse_expression P = Ok (VInt 10, advance P))
    by (vm_compute; reflexivity).
  split; [exact H|].
  destruct (X10_bracket_value_kinds P _ _ H) as (_ & Hc & _). exact Hc.
Defined.

(** X11.  [next_token] never returns a token of type [LPAREN], [RBRACK],
    [PLUS], [MINUS], [MUL] or [DIV]: these members of [TokenType] are not
    produced by any rule of the lexer. *)
Theorem X11_token_types_never_produced (L : Lexer) :
  ~ In (tok_type (fst (next_token L))) [LPAREN; RBRACK; PLUS; MINUS; MUL; DIV].
Proof.
  destruct (next_token L) as [t L'] eqn:H.
  destruct (next_token_by_type L t L' H) as (_ & _ & _ & _ & _ & _ & Hin).
  simpl fst. intros Hbad. simpl in Hin, Hbad.
  repeat (destruct Hin as [Hin|Hin];
    [rewrite <- Hin in Hbad;
     repeat (destruct Hbad as [Hbad|Hbad]; [discriminate Hbad|]);
     exact Hbad|]).
  exact Hin.
Qed.

(** ** Number tokens *)

Lemma hex_digit_facts (c : ascii) :
  is_hex_digit c = true ->
  isspace c = false /\ char_eqb c "-" = false /\ char_eqb c "+" = false /\
  char_eqb c "_" = false /\
  exists v : Z, digit_in 16 c = Some v /\ (0 <= v)%Z.
Proof.
  intros H. destruct c as [[] [] [] [] [] [] [] []];
    vm_compute in H; try discriminate H; clear H;
    repeat split; try reflexivity;
    eexists; (split; [vm_compute; reflexivity|lia]).
Qed.

Lemma digit_facts (c : ascii) :
  is_digit c = true ->
  is_hex_digit c = true /\ char_eqb "x" (lower_char c) = false /\
  exists v : Z, digit_in 10 c = Some v /\ (0 <= v)%Z.
Proof.
  intros H. destruct c as [[] [] [] [] [] [] [] []];
    vm_compute in H; try discriminate H; clear H;
    repeat split; try reflexivity;
    eexists; (split; [vm_compute; reflexivity|lia]).
Qed.

Lemma take_while_all (f : ascii -> bool) (t : str) :
  Forall (fun c => f c = true) (take_while f t).
Proof.
  induction t as [|c t IH]; simpl; [constructor|].
  destruct (f c) eqn:E; constructor; assumption.
Qed.

Lemma strip_no_space (t : str) :
  Forall (fun c => isspace c = false) t -> strip t = t.
Proof.
  intros H. unfold strip, lstrip, rstrip.
  assert (Hd : forall u, Forall (fun c => isspace c = false) u ->
                 drop_while isspace u = u).
  { intros u Hu. destruct u as [|c u]; [reflexivity|].
    inversion Hu as [|? ? Hc _]; subst. simpl. rewrite Hc. reflexivity. }
  rewrite (Hd t H), (Hd (rev t)) by (apply Forall_rev, H).
  apply rev_involutive.
Qed.

Lemma int_digits_digits (base : Z) (t : str) (acc : Z) :
  (0 <= base)%Z -> (0 <= acc)%Z ->
  Forall (fun c => char_eqb c "_" = false /\
                   exists v : Z, digit_in base c = Some v /\ (0 <= v)%Z) t ->
  exists n : Z, int_digits base t acc = Some n /\ (0 <= n)%Z.
Proof.
  intros Hb. revert acc. induction t as [|c t IH]; intros acc Hacc H.
  - exists acc. auto.
  - inversion H as [|? ? (Hu & v & Hv & Hv0) Ht]; subst.
    simpl. rewrite Hu, Hv. apply IH; [nia|exact Ht].
Qed.

Lemma digit_count_digits (t : str) :
  Forall (fun c => char_eqb c "_" = false) t -> digit_count t = len t.
Proof.
  unfold digit_count, len. induction 1 as [|c t Hc _ IH]; [reflexivity|].
  cbn [filter]. rewrite Hc. cbn [negb List.length]. rewrite IH. reflexivity.
Qed.

(** A run of digits is read in full, unless the base is not a power of two
    and the run is longer than [int_max_str_digits]. *)
Lemma int_unsigned_digits (base : Z) (t : str) :
  (0 <= base)%Z -> t <> [] ->
  Forall (fun c => char_eqb c "_" = false /\
                   exists v : Z, digit_in base c = Some v /\ (0 <= v)%Z) t ->
  if negb (binary_base base) && (int_max_str_digits <? Z.of_nat (len t))%Z
  then int_unsigned base t = None
  else exists n : Z, int_unsigned base t = Some n /\ (0 <= n)%Z.
Proof.
  intros Hb Hne H.
  assert (Hcount : digit_count t = len t).
  { apply digit_count_digits. eapply Forall_impl; [|exact H].
    intros c Hc. apply Hc. }
  destruct t as [|d t]; [contradiction|].
  inversion H as [|? ? (Hu & v & Hv & Hv0) Ht]; subst.
  destruct (int_digits_digits base t v Hb Hv0 Ht) as (n & Hn & Hn0).
  unfold int_unsigned. rewrite Hv, Hn, Hcount.
  destruct (negb (binary_base base) && _); [reflexivity|].
  exists n. auto.
Qed.

(** What [_parse_number] matches is read by [int] in the base of its token
    type, as a number that is not negative; a decimal literal of more than
    [int_max_str_digits] digits is refused. *)
Lemma match_number_int (r value : str) :
  match_number r = Some value ->
  (startswith (s "0x") (lower value) = true /\
   exists n : Z, py_int 16 value = Some n /\ (0 <= n)%Z) \/
  (startswith (s "0x") (lower value) = false /\
   if (int_max_str_digits <? Z.of_nat (len value))%Z
   then py_int 10 value = None
   else exists n : Z, py_int 10 value = Some n /\ (0 <= n)%Z).
Proof.
  assert (Hdec : forall ds, ds <> [] -> Forall (fun c => is_digit c = true) ds ->
            startswith (s "0x") (lower ds) = false /\
            if (int_max_str_digits <? Z.of_nat (len ds))%Z
            then py_int 10 ds = None
            else exists n : Z, py_int 10 ds = Some n /\ (0 <= n)%Z).
  { intros ds Hne Hds. split.
    - destruct ds as [|d [|d2 ds]]; [contradiction| |].
      + change (startswith (s "0x") (lower [d]))
          with (char_eqb "0" (lower_char d) && false).
        apply andb_false_r.
      + inversion Hds as [|? ? _ Hds']; subst.
        inversion Hds' as [|? ? Hd2 _]; subst.
        destruct (digit_facts d2 Hd2) as (_ & Hx & _).
        change (startswith (s "0x") (lower (d :: d2 :: ds)))
          with (char_eqb "0" (lower_char d)
                && (char_eqb "x" (lower_char d2) && true)).
        rewrite Hx. apply andb_false_r.
    - assert (Hu : int_unsigned 10 ds = py_int 10 ds).
      { unfold py_int. rewrite strip_no_space.
        2:{ eapply Forall_impl; [|exact Hds]. intros c Hc.
            destruct (digit_facts c Hc) as (Hh & _).
            apply (hex_digit_facts c Hh). }
        destruct ds as [|d ds]; [contradiction|].
        inversion Hds as [|? ? Hd _]; subst.
        destruct (digit_facts d Hd) as (Hh & _).
        destruct (hex_digit_facts d Hh) as (_ & Hm & Hp & _).
        rewrite Hm, Hp.
        assert (Hpre : int_prefix 10 (d :: ds) = d :: ds)
          by (destruct ds; reflexivity).
        rewrite Hpre. reflexivity. }
      rewrite <- Hu.
      apply (int_unsigned_digits 10 ds); [lia|exact Hne|].
      eapply Forall_impl; [|exact Hds]. intros c Hc.
      destruct (digit_facts c Hc) as (Hh' & _ & Hv).
      destruct (hex_digit_facts c Hh') as (_ & _ & _ & Hu' & _). auto. }
  unfold match_number.
  destruct r as [|z [|x r']].
  - simpl. discriminate.
  - intros H. right. destruct (take_while is_digit [z]) as [|d ds] eqn:E;
      [discriminate|]. injection H as <-.
    apply Hdec; [discriminate|]. rewrite <- E. apply take_while_all.
  - destruct (char_eqb z "0" && (char_eqb x "x" || char_eqb x "X")) eqn:Ehex.
    + destruct (take_while is_hex_digit r') as [|h hs] eqn:Eh.
      * intros H. right.
        destruct (take_while is_digit (z :: x :: r')) as [|d ds] eqn:E;
          [discriminate|]. injection H as <-.
        apply Hdec; [discriminate|]. rewrite <- E. apply take_while_all.
      * intros H. injection H as <-. left.
        apply andb_true_iff in Ehex. destruct Ehex as [Hz Hx].
        apply char_eqb_eq in Hz. subst z.
        assert (Hhs : Forall (fun c => is_hex_digit c = true) (h :: hs))
          by (rewrite <- Eh; apply take_while_all).
        assert (Hxx : x = "x" \/ x = "X").
        { apply orb_true_iff in Hx.
          destruct Hx as [Hx|Hx]; apply char_eqb_eq in Hx; auto. }
        split.
        { destruct Hxx; subst x; reflexivity. }
        unfold py_int. rewrite strip_no_space.
        2:{ constructor; [reflexivity|].
            constructor; [destruct Hxx; subst x; reflexivity|].
            eapply Forall_impl; [|exact Hhs]. intros c Hc.
            apply (hex_digit_facts c Hc). }
        change (char_eqb "0" "-") with false.
        change (char_eqb "0" "+") with false. cbv iota.
        assert (Hpre : int_prefix 16 ("0" :: x :: h :: hs) = h :: hs).
        { inversion Hhs as [|? ? Hh _]; subst.
          destruct (hex_digit_facts h Hh) as (_ & _ & _ & Hu & _).
          unfold int_prefix. destruct Hxx; subst x; simpl; rewrite Hu;
            reflexivity. }
        rewrite Hpre.
        apply (int_unsigned_digits 16 (h :: hs)); [lia|discriminate|].
        eapply Forall_impl; [|exact Hhs]. intros c Hc.
        destruct (hex_digit_facts c Hc) as (_ & _ & _ & Hu & Hv). auto.
    + intros H. right.
      destruct (take_while is_digit (z :: x :: r')) as [|d ds] eqn:E;
        [discriminate|]. injection H as <-.
      apply Hdec; [discriminate|]. rewrite <- E. apply take_while_all.
Qed.

(** X12.  A number token that [next_token] returns is read by [int] in
    base 10 for a [NUMBER] token and in base 16 for a [HEX] token.  A [HEX]
    token of any length, and a [NUMBER] token of at most 4300 digits, parse
    as a value to an integer that is not negative; a [NUMBER] token of more
    than 4300 digits makes the parse raise [ValueError]. *)
Theorem X12_number_token_converts
    (L : Lexer) (t : Token) (L' : Lexer) (f : nat) (P : Parser) :
  next_token L = (t, L') ->
  tok_type t = NUMBER \/ tok_type t = HEX ->
  current_token P = t ->
  (tok_type t = HEX \/
   (Z.of_nat (len (tok_value t)) <= int_max_str_digits)%Z ->
   exists n : Z,
     (0 <= n)%Z /\
     py_int (if is_type (tok_type t) HEX then 16 else 10) (tok_value t)
     = Some n /\
     _parse_value (S f) P = Ok (VInt n, advance P)) /\
  (tok_type t = NUMBER ->
   (int_max_str_digits < Z.of_nat (len (tok_value t)))%Z ->
   _parse_value (S f) P = Raise ValueError).
Proof.
  intros Hnext Ht Hcur.
  destruct (next_token_by_type L t L' Hnext) as (L0 & _ & _ & _ & Hn & _).
  destruct (_parse_number_type _ _ _ (Hn Ht)) as [Hm Hty].
  assert (Hok : forall (base : Z) (n : Z),
            base = (if is_type (tok_type t) HEX then 16 else 10)%Z ->
            py_int base (tok_value t) = Some n ->
            _parse_value (S f) P = Ok (VInt n, advance P)).
  { intros base n -> Hint. simpl. rewrite Hcur.
    destruct (match_number_int _ _ Hm) as [(Hs & _)|(Hs & _)];
      rewrite Hs in Hty; rewrite Hty in Hint |- *; cbn [is_type] in Hint;
      simpl in Hint; unfold int_of; rewrite Hint; cbn [bind];
      rewrite eat_current by (unfold current_type; rewrite Hcur; exact Hty);
      reflexivity. }
  destruct (match_number_int _ _ Hm) as [(Hs & n & Hint & Hpos)|(Hs & Hdec)];
    rewrite Hs in Hty.
  - split.
    + intros _. exists n. rewrite Hty at 1. split; [exact Hpos|].
      split; [exact Hint|]. apply (Hok 16%Z); [rewrite Hty; reflexivity|exact Hint].
    + intros Hnum. rewrite Hty in Hnum. discriminate Hnum.
  - split.
    + intros [Hhex|Hlen]; [rewrite Hty in Hhex; discriminate Hhex|].
      destruct (Z.ltb_spec int_max_str_digits (Z.of_nat (len (tok_value t))));
        [lia|].
      destruct Hdec as (n & Hint & Hpos). exists n. rewrite Hty at 1.
      split; [exact Hpos|]. split; [exact Hint|].
      apply (Hok 10%Z); [rewrite Hty; reflexivity|exact Hint].
    + intros _ Hlen.
      destruct (Z.ltb_spec int_max_str_digits (Z.of_nat (len (tok_value t))));
        [|lia].
      simpl. rewrite Hcur, Hty. unfold int_of. rewrite Hdec. reflexivity.
Qed.

Lemma X12_number_token_converts_witness :
  let L := Lexer_init (s " 0x1F;") in
  let t := mkToken HEX (s "0x1F") 1 2 in
  let L' := mkLexer (s " 0x1F;") 5 1 6 in
  let P := mkParser L' t [] in
  let nines := repeat "9"%char 4301 in
  let M := Lexer_init nines in
  let u := mkToken NUMBER nines 1 1 in
  let M' := mkLexer nines 4301 1 4302 in
  let Q := mkParser M' u [] in
  next_token L = (t, L') /\
  _parse_value 1 P = Ok (VInt 31, advance P) /\
  next_token M = (u, M') /\
  _parse_value 1 Q = Raise ValueError.
Proof.
  intros L t L' P nines M u M' Q.
  assert (H : next_token L = (t, L')) by (vm_compute; reflexivity).
  assert (H' : next_token M = (u, M')) by (vm_compute; reflexivity).
  split; [exact H|]. split; [|split; [exact H'|]].
  - destruct (X12_number_token_converts L t L' 0 P H (or_intror eq_refl) eq_refl)
      as (Hv & _).
    destruct (Hv (or_introl eq_refl)) as (n & _ & Hint & Hn).
    assert (n = 31%Z) as -> by (vm_compute in Hint; congruence).
    exact Hn.
  - destruct (X12_number_token_converts M u M' 0 Q H' (or_introl eq_refl) eq_refl)
      as (_ & Hr).
    apply Hr; [reflexivity|]. vm_compute. reflexivity.
Defined.

(** ** String literals *)

Lemma step_char_text (c : ascii) (L : Lexer) :
  text (step_char c L) = text L /\ pos (step_char c L) = S (pos L).
Proof. unfold step_char. destruct (char_eqb c newline); auto. Qed.

Lemma string_scan_closed
    (body tail : str) (quote : ascii) (start sl sc : nat) (L : Lexer) :
  rest L = body ++ quote :: tail ->
  ~ In quote body -> ~ In backslash body ->
  1 <= pos L -> char_at L (pos L - 1) <> backslash ->
  fst (string_scan (body ++ quote :: tail) quote start sl sc L)
  = Some (mkToken STRING (slice (text L) start (pos L + len body + 1)) sl sc) /\
  rest (snd (string_scan (body ++ quote :: tail) quote start sl sc L)) = tail /\
  pos (snd (string_scan (body ++ quote :: tail) quote start sl sc L))
  = pos L + len body + 1.
Proof.
  revert L. induction body as [|c b IH]; intros L Hrest Hq Hb Hpos Hprev.
  - simpl app. cbn [string_scan].
    assert (Hqq : char_eqb quote quote = true)
      by (apply char_eqb_eq; reflexivity).
    assert (Hp : negb (char_eqb (char_at L (pos L - 1)) backslash) = true).
    { destruct (char_eqb _ backslash) eqn:E; [|reflexivity].
      apply char_eqb_eq in E. contradiction. }
    rewrite Hqq, Hp, orb_true_r. cbn [andb fst snd pos].
    split; [|split].
    + unfold len. simpl. repeat f_equal. lia.
    + apply (skipn_cons_S _ _ _ _ Hrest).
    + unfold len. simpl. lia.
  - simpl app. cbn [string_scan].
    assert (Hc : char_eqb c quote = false).
    { destruct (char_eqb c quote) eqn:E; [|reflexivity].
      apply char_eqb_eq in E. subst c. exfalso. apply Hq. left. reflexivity. }
    rewrite Hc. cbn [andb].
    destruct (step_char_text c L) as [Et Ep].
    destruct (IH (step_char c L)) as (H1 & H2 & H3).
    + eapply rest_step_char. exact Hrest.
    + intros H. apply Hq. right. exact H.
    + intros H. apply Hb. right. exact H.
    + lia.
    + rewrite Ep. replace (S (pos L) - 1) with (pos L) by lia.
      unfold char_at. rewrite Et. fold (char_at L (pos L)).
      rewrite (rest_char_at L c _ Hrest).
      intros E. apply Hb. left. exact E.
    + rewrite H1, H2, H3, Et, Ep. unfold len. simpl.
      repeat split; try lia. repeat f_equal. lia.
Qed.

Lemma replace2_absent (a b r : ascii) (t : str) :
  ~ In a t -> replace2 a b r t = t.
Proof.
  induction t as [|x t IH]; intros H; [reflexivity|].
  cbn [replace2]. destruct t as [|y t'].
  - reflexivity.
  - assert (Hx : char_eqb x a = false).
    { destruct (char_eqb x a) eqn:E; [|reflexivity].
      apply char_eqb_eq in E. subst x. exfalso. apply H. left. reflexivity. }
    rewrite Hx. cbn [andb]. f_equal. apply IH.
    intros Hin. apply H. right. exact Hin.
Qed.

Lemma string_value_quoted (quote : ascii) (body : str) :
  ~ In backslash body -> string_value (quote :: body ++ [quote]) = body.
Proof.
  intros H. unfold string_value, slice_1_m1. simpl tl.
  rewrite removelast_last.
  rewrite (replace2_absent backslash dquote dquote body H).
  apply (replace2_absent backslash squote squote body H).
Qed.

Lemma next_token_string (L : Lexer) (quote : ascii) (r : str)
    (tok : Token) (L' : Lexer) :
  rest L = quote :: r ->
  quote = squote \/ quote = dquote ->
  _parse_string L = (Some tok, L') ->
  next_token L = (tok, L').
Proof.
  intros Hrest Hq Hstr.
  unfold next_token. rewrite Hrest.
  change (len (quote :: r)) with (S (len r)).
  cbn [next_token_loop]. rewrite Hrest.
  assert (Hslice : slice (text L) (pos L) (pos L + 2) = firstn 2 (quote :: r)).
  { unfold slice. replace (pos L + 2 - pos L) with 2 by lia.
    fold (rest L). rewrite Hrest. reflexivity. }
  rewrite Hslice, (rest_char_at _ _ _ Hrest).
  assert (Hkey : _match_keyword L = None).
  { unfold _match_keyword. rewrite Hrest.
    destruct Hq; subst quote; reflexivity. }
  assert (Hnum : _parse_number L = None).
  { unfold _parse_number. rewrite Hrest.
    destruct Hq; subst quote; destruct r as [|x r']; reflexivity. }
  rewrite Hkey, Hnum, Hstr.
  destruct Hq; subst quote; simpl; try (rewrite andb_false_r); reflexivity.
Qed.

(** X13.  A string literal whose body holds neither its quote character
    nor a backslash is lexed as one [STRING] token, the quotes included,
    with the lexer left right after the closing quote; parsing that token
    gives the body as a text. *)
Theorem X13_string_literal_round_trip
    (L : Lexer) (quote : ascii) (body tail : str) :
  rest L = quote :: body ++ quote :: tail ->
  quote = squote \/ quote = dquote ->
  ~ In quote body -> ~ In backslash body ->
  let t := mkToken STRING (quote :: body ++ [quote]) (line L) (col L) in
  fst (next_token L) = t /\
  rest (snd (next_token L)) = tail /\
  (forall (f : nat) (P : Parser),
     current_token P = t ->
     _parse_value (S f) P = Ok (VStr (codes body), advance P)).
Proof.
  intros Hrest Hq Hnq Hnb t.
  set (L1 := mkLexer (text L) (S (pos L)) (line L) (S (col L))).
  assert (Hr1 : rest L1 = body ++ quote :: tail)
    by (apply (skipn_cons_S _ _ _ _ Hrest)).
  assert (Hprev : char_at L1 (pos L1 - 1) <> backslash).
  { unfold L1, char_at. cbn [pos text].
    replace (S (pos L) - 1) with (pos L) by lia.
    fold (char_at L (pos L)). rewrite (rest_char_at _ _ _ Hrest).
    destruct Hq; subst quote; discriminate. }
  destruct (string_scan_closed body tail quote (pos L) (line L) (col L) L1
              Hr1 Hnq Hnb ltac:(unfold L1; simpl; lia) Hprev)
    as (Htok & Hrest' & _).
  assert (Hval : slice (text L1) (pos L) (pos L1 + len body + 1)
                 = quote :: body ++ [quote]).
  { unfold slice, L1. cbn [pos text].
    replace (S (pos L) + len body + 1 - pos L) with (S (len body + 1)) by lia.
    fold (rest L). rewrite Hrest. cbn [firstn]. f_equal.
    unfold len. rewrite firstn_app_2. reflexivity. }
  rewrite Hval in Htok.
  assert (Hstr : _parse_string L
                 = (Some t, snd (string_scan (body ++ quote :: tail) quote
                                   (pos L) (line L) (col L) L1))).
  { unfold _parse_string. rewrite (rest_char_at _ _ _ Hrest).
    assert (Hneg : negb (char_eqb quote squote || char_eqb quote dquote) = false)
      by (destruct Hq; subst quote; reflexivity).
    rewrite Hneg. fold L1. rewrite Hr1.
    destruct (string_scan _ _ _ _ _ L1) as [o L2]. simpl in Htok.
    rewrite Htok. reflexivity. }
  rewrite (next_token_string L quote _ _ _ Hrest Hq Hstr).
  split; [reflexivity|]. split; [exact Hrest'|].
  intros f P Hcur. simpl. rewrite Hcur. unfold t at 1. cbn [tok_type tok_value].
  rewrite eat_current by (unfold current_type; rewrite Hcur; reflexivity).
  cbn [bind]. unfold t. cbn [tok_value].
  rewrite string_value_quoted by exact Hnb. reflexivity.
Qed.

Lemma X13_string_literal_round_trip_witness :
  let L := mkLexer (s "t = 'it is' ;") 4 1 5 in
  let t := mkToken STRING (s "'it is'") 1 5 in
  fst (next_token L) = t /\
  rest (snd (next_token L)) = s " ;" /\
  _parse_value 1 (mkParser L t [])
  = Ok (VStr (codes (s "it is")), advance (mkParser L t [])).
Proof.
  intros L t.
  destruct (X13_string_literal_round_trip L squote (s "it is") (s " ;"))
    as (H1 & H2 & H3).
  - reflexivity.
  - left. reflexivity.
  - simpl. intros H. repeat (destruct H as [H|H]; [discriminate H|]). exact H.
  - simpl. intros H. repeat (destruct H as [H|H]; [discriminate H|]). exact H.
  - split; [exact H1|]. split; [exact H2|]. apply H3. reflexivity.
Defined.

(** ** Identifiers and keywords *)

Lemma startswith_take_while (f : ascii -> bool) (p r : str) :
  startswith p (take_while f r) = true -> startswith p r = true.
Proof.
  revert r. induction p as [|x p IH]; intros r H; [reflexivity|].
  destruct r as [|c r]; [discriminate H|]. simpl in H.
  destruct (f c); [|discriminate H]. simpl in *.
  apply andb_true_iff in H. destruct H as [H1 H2].
  rewrite H1. apply IH, H2.
Qed.

Lemma next_token_keyword (L : Lexer) (c : ascii) (r : str)
    (tok : Token) (L' : Lexer) :
  rest L = c :: r ->
  in_range 97 122 c = true ->
  _match_keyword L = Some (tok, L') ->
  next_token L = (tok, L').
Proof.
  intros Hrest Hc Hkey.
  assert (Hfacts : char_eqb c "#" = false /\ isspace c = false /\
                   char_eqb c "{" = false /\ char_eqb c "[" = false).
  { clear - Hc. destruct c as [[] [] [] [] [] [] [] []];
      vm_compute in Hc; try discriminate Hc; repeat split. }
  destruct Hfacts as (H1 & H2 & H3 & H4).
  unfold next_token. rewrite Hrest.
  change (len (c :: r)) with (S (len r)).
  cbn [next_token_loop]. rewrite Hrest, H1, H2.
  assert (Hslice : str_eqb (slice (text L) (pos L) (pos L + 2)) (s "{-")
                   = false).
  { unfold slice. replace (pos L + 2 - pos L) with 2 by lia.
    fold (rest L). rewrite Hrest. destruct r; simpl; rewrite H3; reflexivity. }
  rewrite Hslice, andb_false_r, (rest_char_at _ _ _ Hrest), H4, Hkey.
  reflexivity.
Qed.

(** X14.  An identifier token starts with a letter or an underscore and
    goes on with letters, digits and underscores, and it never starts with
    the text of a keyword pattern: where the text has [true] or [false],
    [next_token] returns the Boolean token, whatever follows, so that a
    name such as [trueish] is lexed as [true] and then [ish]. *)
Theorem X14_names_and_keywords (L : Lexer) :
  (forall (t : Token) (L' : Lexer),
     next_token L = (t, L') -> tok_type t = NAME ->
     (exists (c : ascii) (r : str),
        tok_value t = c :: r /\ is_name_start c = true /\
        Forall (fun x => is_name_char x = true) r) /\
     (forall (p : str) (tt : TokenType),
        In (p, tt) patterns -> startswith p (tok_value t) = false)) /\
  (forall tail : str,
     rest L = s "true" ++ tail ->
     fst (next_token L) = mkToken BOOL_TRUE (s "true") (line L) (col L)) /\
  (forall tail : str,
     rest L = s "false" ++ tail ->
     fst (next_token L) = mkToken BOOL_FALSE (s "false") (line L) (col L)).
Proof.
  split; [|split].
  - intros t L' Hnext Ht.
    destruct (next_token_by_type L t L' Hnext) as (L0 & _ & _ & Hk & _).
    specialize (Hk (or_introl Ht)).
    destruct (_match_keyword_type _ _ _ Hk) as [(_ & Hfind & Hname)|(Hin & _)].
    + unfold match_name in Hname.
      destruct (rest L0) as [|c r] eqn:Er; [discriminate Hname|].
      destruct (is_name_start c) eqn:Ec; [|discriminate Hname].
      injection Hname as Hv. split.
      * exists c, (take_while is_name_char r). rewrite <- Hv.
        repeat split; auto. apply take_while_all.
      * intros p tt Hp. destruct (startswith p (tok_value t)) eqn:E;
          [|reflexivity].
        exfalso. rewrite <- Hv in E.
        assert (Hrest : startswith p (c :: r) = true).
        { destruct p as [|x p]; [reflexivity|]. simpl in *.
          apply andb_true_iff in E. destruct E as [E1 E2].
          rewrite E1. eapply startswith_take_while, E2. }
        apply (find_none _ _ Hfind) in Hp. simpl in Hp.
        rewrite Hrest in Hp. discriminate Hp.
    + apply pattern_types in Hin. rewrite Ht in Hin. simpl in Hin.
      exfalso. repeat (destruct Hin as [Hin|Hin]; [discriminate Hin|]).
      exact Hin.
  - intros tail Hrest.
    erewrite next_token_keyword; [reflexivity|exact Hrest|reflexivity|].
    unfold _match_keyword. rewrite Hrest. reflexivity.
  - intros tail Hrest.
    erewrite next_token_keyword; [reflexivity|exact Hrest|reflexivity|].
    unfold _match_keyword. rewrite Hrest. reflexivity.
Qed.

Lemma X14_names_and_keywords_witness :
  map shape (tokenize (s "trueish falsehood _x1"))
  = [(BOOL_TRUE, s "true"); (NAME, s "ish"); (BOOL_FALSE, s "false");
     (NAME, s "hood"); (NAME, s "_x1"); (EOF, [])] /\
  fst (next_token (Lexer_init (s "trueish")))
  = mkToken BOOL_TRUE (s "true") 1 1 /\
  startswith (s "true") (s "ish") = false.
Proof.
  split; [vm_compute; reflexivity|].
  destruct (X14_names_and_keywords (Lexer_init (s "trueish")))
    as (_ & Htrue & _).
  destruct (X14_names_and_keywords
              (mkLexer (s "trueish") 4 1 5)) as (Hname & _ & _).
  split; [exact (Htrue (s "ish") eq_refl)|].
  destruct (Hname (mkToken NAME (s "ish") 1 5) (mkLexer (s "trueish") 7 1 8))
    as (_ & Hp); [vm_compute; reflexivity|reflexivity|].
  apply (Hp (s "true") BOOL_TRUE). simpl. tauto.
Defined.

(** ** Blank input *)

Lemma skip_whitespace_loop_all (r : str) (L : Lexer) :
  forallb isspace r = true -> rest L = r ->
  rest (skip_whitespace_loop r L) = [].
Proof.
  revert L. induction r as [|c r IH]; intros L Hall Hrest; simpl.
  - exact Hrest.
  - simpl in Hall. apply andb_true_iff in Hall. destruct Hall as [Hc Hall].
    rewrite Hc. apply IH; [exact Hall|]. eapply rest_step_char, Hrest.
Qed.

(** X15.  A text of white space only (the empty text included) is parsed
    to the empty document: the first token is [EOF] and no error is
    raised. *)
Theorem X15_blank_text_gives_empty_document (t : str) :
  forallb isspace t = true ->
  tok_type (fst (next_token (Lexer_init t))) = EOF /\
  parse_text t = Ok [].
Proof.
  intros Hall.
  assert (Hnext : exists L', next_token (Lexer_init t)
                             = (mkToken EOF [] (line L') (col L'), L')).
  { exists (_skip_whitespace (Lexer_init t)).
    rewrite <- (next_token_skip_whitespace (Lexer_init t)).
    apply next_token_at_end. unfold _skip_whitespace.
    apply skip_whitespace_loop_all; [exact Hall|reflexivity]. }
  destruct Hnext as (L' & Hnext). split; [rewrite Hnext; reflexivity|].
  unfold parse_text, parse, Parser_init. rewrite Hnext.
  unfold fuel_for. rewrite Nat.add_comm. reflexivity.
Qed.

Lemma X15_blank_text_gives_empty_document_witness :
  parse_text (s "  
  ") = Ok [] /\ parse_text [] = Ok [].
Proof.
  split.
  - apply (X15_blank_text_gives_empty_document (s "  
  ")). reflexivity.
  - apply (X15_blank_text_gives_empty_document []). reflexivity.
Defined.

(** ** The constant table *)



(** ** List literals end with their parenthesis *)

Lemma _parse_list_loop_end
    (f : nat) (P : Parser) (acc r : list Value) (P2 : Parser) :
  _parse_list_loop f P acc = Ok (r, P2) ->
  current_type P2 = RPAREN \/ current_type P2 = EOF.
Proof.
  revert P acc. induction f as [|f IH]; intros P acc H; [discriminate|].
  simpl in H.
  destruct (is_type (current_type P) RPAREN) eqn:Er.
  - injection H as _ <-. apply is_type_true in Er. auto.
  - destruct (is_type (current_type P) EOF) eqn:Ee.
    + injection H as _ <-. apply is_type_true in Ee. auto.
    + simpl in H. bind_inv H. bind_inv H. eapply IH, H.
Qed.

(** X17.  A list literal is read successfully only by consuming its
    closing parenthesis, and its value is a list; when the elements run
    to the end of the input, [_parse_list] raises the syntax error that a
    closing parenthesis was expected and [EOF] found. *)
Theorem X17_list_needs_closing_paren (f : nat) (P : Parser) :
  (forall (v : Value) (P' : Parser),
     _parse_list f P = Ok (v, P') ->
     exists (l : list Value) (P2 : Parser),
       v = VList l /\ current_type P2 = RPAREN /\ P' = advance P2) /\
  (forall (r : list Value) (P2 : Parser),
     current_type P = LIST_START ->
     _parse_list_loop f (advance P) [] = Ok (r, P2) ->
     current_type P2 = EOF ->
     _parse_list (S f) P
     = Raise (SyntaxError
                (Expected (tok_line (current_token P2))
                          (tok_col (current_token P2)) RPAREN EOF))).
Proof.
  split.
  - intros v P' H. destruct f as [|f]; [discriminate|]. simpl in H.
    run_inv H.
    match goal with X : eat RPAREN _ = Ok _ |- _ =>
      apply eat_ok_inv in X; destruct X as [X1 X2] end.
    eauto.
  - intros r P2 Hs Hloop He. simpl.
    rewrite (eat_current LIST_START P Hs). cbn [bind].
    rewrite Hloop. cbn [bind].
    rewrite eat_other by (rewrite He; discriminate).
    rewrite He. reflexivity.
Qed.

Lemma X17_list_needs_closing_paren_witness :
  let P := Parser_init (Lexer_init (s "(list 1, 2")) in
  _parse_list 4 P = Raise (SyntaxError (Expected 1 11 RPAREN EOF)) /\
  parse_text (s "l = (list 1, 2")
  = Raise (SyntaxError (Expected 1 15 RPAREN EOF)).
Proof.
  intros P. split; [|vm_compute; reflexivity].
  destruct (X17_list_needs_closing_paren 3 P) as [_ H].
  rewrite (H [VInt 1; VInt 2]
             (advance (advance (advance (advance P))))).
  - vm_compute. reflexivity.
  - reflexivity.
  - vm_compute. reflexivity.
  - vm_compute. reflexivity.
Defined.

(** ** The fields of a struct literal *)

Lemma _parse_struct_loop_fields
    (f : nat) (P : Parser) (kvs : list (str * Value)) (P' : Parser) :
  Fields f P kvs P' ->
  exists n : nat,
    forall (g : nat) (acc : dict),
      n <= g ->
      _parse_struct_loop g P acc = Ok (dict_update acc kvs, P').
Proof.
  induction 1 as [P Hend
                 | P kvs P' Hn He Hs _ [n IH]
                 | P v P3 kvs P' Hn Ha Hv _ [n IH]].
  - exists 1. intros g acc Hg. destruct g as [|g]; [lia|].
    apply _parse_struct_loop_stop. auto.
  - exists (S n). intros g acc Hg. destruct g as [|g]; [lia|].
    simpl. apply is_type_false in Hn, He, Hs. rewrite Hn, He, Hs.
    cbn [negb andb]. apply IH. lia.
  - exists (S (Nat.max f n)). intros g acc Hg. destruct g as [|g]; [lia|].
    simpl. rewrite Hn.
    change (is_type NAME EOF) with false.
    change (is_type NAME STRUCT_END) with false.
    change (is_type NAME NAME) with true. cbn [negb andb].
    rewrite (eat_current NAME P Hn). cbn [bind].
    rewrite Ha. change (is_type ASSIGN ASSIGN) with true. cbn [negb].
    rewrite (eat_current ASSIGN _ Ha). cbn [bind].
    rewrite (_parse_value_fuel f g _ _ _ Hv) by lia. cbn [bind].
    rewrite eat_optional_spec. cbn [bind].
    fold (skip_comma P3). rewrite IH by lia. reflexivity.
Qed.

(** X18.  The fields of a struct literal become its entries in the order
    in which they are written, whether commas separate them or not and
    whatever stray tokens stand between them; a field name that occurs
    again replaces the value of the earlier entry in its place. *)
Theorem X18_struct_fields_in_order
    (f : nat) (P : Parser) (kvs : list (str * Value)) (P' : Parser) :
  current_type P = STRUCT_START ->
  Fields f (advance P) kvs P' ->
  exists n : nat,
    forall g : nat,
      n <= g ->
      _parse_struct g P = Ok (VDict (dict_update [] kvs), advance P').
Proof.
  intros Hs Hf.
  assert (Hend : current_type P' = STRUCT_END).
  { clear Hs. induction Hf; auto. }
  destruct (_parse_struct_loop_fields f _ kvs P' Hf) as [n Hn].
  exists (S n). intros g Hg. destruct g as [|g]; [lia|].
  simpl. rewrite (eat_current STRUCT_START P Hs). cbn [bind].
  rewrite Hn by lia. cbn [bind].
  rewrite (eat_current STRUCT_END P' Hend). reflexivity.
Qed.

Lemma Fields_field_at (f : nat) (P : Parser) (k : str) (v : Value)
    (P3 Q : Parser) (kvs : list (str * Value)) (P' : Parser) :
  k = tok_value (current_token P) ->
  current_type P = NAME ->
  current_type (advance P) = ASSIGN ->
  _parse_value f (advance (advance P)) = Ok (v, P3) ->
  Q = skip_comma P3 ->
  Fields f Q kvs P' ->
  Fields f P ((k, v) :: kvs) P'.
Proof. intros -> Hn Ha Hv -> Hf. eapply Fields_field; eauto. Qed.

Lemma X18_struct_fields_in_order_witness :
  let P := Parser_init (Lexer_init (s "struct{a = 1 b = 2, 7 a = 3}")) in
  exists n : nat,
    forall g : nat,
      n <= g ->
      fmap_value (_parse_struct g P)
      = Ok (VDict [(s "a", VInt 3); (s "b", VInt 2)]).
Proof.
  intros P.
  eassert (Hf : Fields 1 (advance P)
                  [(s "a", VInt 1); (s "b", VInt 2); (s "a", VInt 3)] _).
  { eapply Fields_field_at;
      [vm_compute; reflexivity | vm_compute; reflexivity
      | vm_compute; reflexivity | vm_compute; reflexivity
      | vm_compute; reflexivity |].
    eapply Fields_field_at;
      [vm_compute; reflexivity | vm_compute; reflexivity
      | vm_compute; reflexivity | vm_compute; reflexivity
      | vm_compute; reflexivity |].
    eapply Fields_stray;
      [vm_compute; discriminate | vm_compute; discriminate
      | vm_compute; discriminate |].
    eapply Fields_field_at;
      [vm_compute; reflexivity | vm_compute; reflexivity
      | vm_compute; reflexivity | vm_compute; reflexivity
      | vm_compute; reflexivity |].
    apply Fields_end. vm_compute. reflexivity. }
  destruct (X18_struct_fields_in_order 1 P _ _ eq_refl Hf) as [n Hn].
  exists n. intros g Hg. rewrite (Hn g Hg). reflexivity.
Defined.

(** ** Booleans where integers are expected *)

(** X19.  A Boolean passes the test [isinstance(_, int)]: as the inner
    value of a [chr(] form it gives the character of code point 1 or 0,
    not the text ["?"], and as an operand of a two-operand bracket
    expression it counts as the integer 1 or 0, without the syntax error
    for arguments that are not numbers. *)
Theorem X19_boolean_counts_as_integer (b : bool) :
  (forall (f : nat) (P P2 : Parser),
     current_type P = CHR_START ->
     _parse_value f (advance P) = Ok (VBool b, P2) ->
     current_type P2 = RPAREN ->
     _parse_chr (S f) P
     = Ok (VStr [if b then 1%N else 0%N], advance P2)) /\
  (forall (P : Parser) (op field1 field2 : str) (more : list str) (k : Z),
     current_type P = LBRACK ->
     split (strip (slice_1_m1 (tok_value (current_token P))))
       = op :: field1 :: field2 :: more ->
     str_in op operators = true ->
     resolve_argument (constants P) field1 = Ok (VBool b) ->
     resolve_argument (constants P) field2 = Ok (VInt k) ->
     Parser_parse_expression P
     = Ok (VInt (apply_operator op (if b then 1 else 0) k), advance P)).
Proof.
  split.
  - intros f P P2 Hc Hv Hr. rewrite (_parse_chr_run f P _ P2 Hc Hv Hr).
    destruct b; reflexivity.
  - intros P op field1 field2 more k Hcur Hsplit Hop H1 H2.
    unfold Parser_parse_expression.
    rewrite (eat_current LBRACK P Hcur). cbn [bind].
    rewrite Hsplit. cbv beta iota. rewrite Hop. cbn [negb].
    rewrite constants_advance, H1. cbn [bind]. rewrite H2. cbn [bind].
    destruct b; reflexivity.
Qed.

Lemma X19_boolean_counts_as_integer_witness :
  let P := mkParser (Lexer_init (s "b)")) (mkToken CHR_START (s "chr(") 1 1)
                    [(s "b", VBool true)] in
  fmap_value (_parse_chr 2 P) = Ok (VStr [1%N]) /\
  parse_text (s "b := true c = chr(b) n = [+ b 1]")
  = Ok [(s "b", VBool true); (s "c", VStr [1%N]); (s "n", VInt 2)].
Proof.
  intros P. split; [|vm_compute; reflexivity].
  destruct (X19_boolean_counts_as_integer true) as [H _].
  rewrite (H 1 P (advance (advance P)));
    [reflexivity|reflexivity|vm_compute; reflexivity|reflexivity].
Defined.
